(** * BindingModel: a TF-binding model built from weighted PWMs

    A shallow embedding of [src/binding_model.py] (class [BindingModel]) and
    the properties of its PWM combination, sequence scoring and Bayesian
    estimator.

    Conventions of the embedding.
    - Python floats are idealised as real numbers ([R]); the statements are
      about inputs on which every intermediate value is finite.
    - A Python exception is a value of [exn]; code that can raise returns a
      [result].  Methods of the class run in [Method], a state-and-error
      monad over the instance fields, so that what a call does to the fields
      is part of its meaning.
    - A matrix of the motif library (a dict from letter to a row of numbers,
      with [length] and [alphabet] attributes) is a record over a [gmap]. *)

From Stdlib Require Import Reals Lra Lia.
From Stdlib Require Import Ascii String.
From stdpp Require Import gmap strings list fin_maps.

Local Open Scope R_scope.

(** ** Exceptions and results *)

Inductive exn : Type :=
| AssertionError
| IndexError
| KeyError (key : ascii)
| ZeroDivisionError
| TypeError
| AttributeError (name : string).

Inductive result (A : Type) : Type :=
| Ok (a : A)
| Raise (e : exn).

Arguments Ok {A} a.
Arguments Raise {A} e.

#[global] Instance result_ret : MRet result := fun A a => Ok a.

#[global] Instance result_bind : MBind result := fun A B f r =>
  match r with
  | Ok a => f a
  | Raise e => Raise e
  end.

(** [assert cond] *)
Definition assert (cond : bool) : result unit :=
  if cond then Ok tt else Raise AssertionError.

(** ** Python built-ins on numbers and sequences *)

#[global] Instance R_eq_dec : EqDecision R := Req_dec_T.

(** [sum(xs)]: starts from 0 and adds the items from left to right. *)
Definition py_sum (xs : list R) : R := fold_left Rplus xs 0.

(** [x / y] on floats: raises ZeroDivisionError when [y] is zero. *)
Definition py_div (x y : R) : result R :=
  if decide (y = 0) then Raise ZeroDivisionError else Ok (x / y).

(** [xs[i]] on a list or tuple, for a non-negative index. *)
Definition list_getitem {A : Type} (xs : list A) (i : nat) : result A :=
  match xs !! i with
  | Some x => Ok x
  | None => Raise IndexError
  end.

(** [d[k]] on a dict keyed by letters. *)
Definition dict_getitem {A : Type} (d : gmap ascii A) (k : ascii) : result A :=
  match d !! k with
  | Some v => Ok v
  | None => Raise (KeyError k)
  end.

(** [{k: f(k) for k in keys}]: the keys are visited from left to right and a
    later occurrence of a key overwrites an earlier one. *)
Fixpoint dict_comprehension {A : Type} (keys : list ascii)
    (f : ascii -> result A) (acc : gmap ascii A) : result (gmap ascii A) :=
  match keys with
  | [] => Ok acc
  | k :: keys' => v ← f k; dict_comprehension keys' f (<[k := v]> acc)
  end.

(** ** The matrix classes of the motif library *)

Record Alphabet : Type := { letters : list ascii }.

#[global] Instance Alphabet_eq_dec : EqDecision Alphabet.
Proof. solve_decision. Defined.

Module Matrix.

Record t : Type := mk {
  alphabet : Alphabet;
  length : nat;
  rows : gmap ascii (list R)
}.

(** [m[let][i]] *)
Definition getitem (m : t) (letter : ascii) (i : nat) : result R :=
  row ← dict_getitem (rows m) letter; list_getitem row i.

End Matrix.

(** Modelled from the spec: the constructor [PositionWeightMatrix(alphabet,
    values)] of the external motif library, which the spec describes as
    matrix storage indexed by (symbol, position) with a length and an
    alphabet attribute.  It keeps one row per letter of the alphabet; the
    length is that of the rows (taken from the first letter). *)
Definition PositionWeightMatrix (alphabet : Alphabet)
    (values : gmap ascii (list R)) : result Matrix.t :=
  table ← dict_comprehension (letters alphabet) (dict_getitem values) ∅;
  len ← match letters alphabet with
        | [] => Ok 0%nat
        | l :: _ => row ← dict_getitem values l; Ok (List.length row)
        end;
  Ok (Matrix.mk alphabet len table).

(** Modelled from the spec: [pwm.log_odds(background)] of the external motif
    library, the log-odds conversion given a background distribution:
    [pssm[symbol][position] = log2(pwm[symbol][position] / background[symbol])]
    for every letter of the alphabet.  The result has the shape of a matrix
    (the library's scoring-matrix class is indexed the same way). *)
Definition log_odds (pwm : Matrix.t) (background : gmap ascii R)
    : result Matrix.t :=
  values ← dict_comprehension (letters (Matrix.alphabet pwm))
             (fun letter =>
                b ← dict_getitem background letter;
                row ← dict_getitem (Matrix.rows pwm) letter;
                Ok (map (fun p => ln (p / b) / ln 2) row)) ∅;
  Ok (Matrix.mk (Matrix.alphabet pwm) (Matrix.length pwm) values).

(** ** The helper modules [misc] and [bio_utils] *)

Module misc.

(** Modelled from the spec: the numeric base-2 logarithm helper. *)
Definition log2 (x : R) : R := ln x / ln 2.

End misc.

Module bio_utils.

Section Complement.

(** What the complement does with a symbol outside {A,C,G,T} is not fixed by
    the spec: [None] stands for a failed lookup of the symbol, [Some c] for
    the symbol it is replaced by. *)
Variable complement_other : ascii -> option ascii.

Definition complement_symbol (c : ascii) : result ascii :=
  if decide (c = "A"%char) then Ok "T"%char
  else if decide (c = "T"%char) then Ok "A"%char
  else if decide (c = "C"%char) then Ok "G"%char
  else if decide (c = "G"%char) then Ok "C"%char
  else match complement_other c with
       | Some c' => Ok c'
       | None => Raise (KeyError c)
       end.

(** Modelled from the spec: the symbol-wise complement of a DNA string
    (A<->T, C<->G), of the same length and not positionally reversed. *)
Definition complement (seq : list ascii) : result (list ascii) :=
  mapM complement_symbol seq.

End Complement.

End bio_utils.

(** ** numpy and scipy on lists of numbers *)

(** [np.mean(xs)] *)
Definition np_mean (xs : list R) : R := py_sum xs / INR (List.length xs).

(** [np.std(xs)]: the square root of the mean squared deviation. *)
Definition np_std (xs : list R) : R :=
  sqrt (np_mean (map (fun x => Rabs (x - np_mean xs) ^ 2) xs)).

(** [scipy.stats.distributions.norm(mu, std).pdf(x)] *)
Definition norm_pdf (mu std x : R) : R :=
  exp (- ((x - mu) / std) ^ 2 / 2) / sqrt (2 * PI) / std.

(** ** Collections *)

Module Collection.

(** A collection is opaque to the model but for its PWM and its sites. *)
Record t : Type := mk {
  pwm : Matrix.t;
  sites : list (list ascii)
}.

End Collection.

(** ** The class [BindingModel] *)

Module BindingModel.

(** *** PWM combination: [_combine_pwms] *)

(** [sum(pwm[let][i]*w for pwm, w in zip(pwms, weights))] *)
Definition weighted_entry (pwms : list Matrix.t) (weights : list R)
    (letter : ascii) (i : nat) : result R :=
  terms ← mapM (fun '(pwm, w) => x ← Matrix.getitem pwm letter i; Ok (x * w))
               (zip pwms weights);
  Ok (py_sum terms).

Definition _combine_pwms (pwms : list Matrix.t) (weights : list R)
    : result Matrix.t :=
  pwm0 ← list_getitem pwms 0;
  let len := Matrix.length pwm0 in
  let alphabet := Matrix.alphabet pwm0 in
  (* Check if all PWMs are of the same length. *)
  _ ← assert (forallb (fun pwm => bool_decide (len = Matrix.length pwm)) pwms);
  (* Check if all PWMs have the same alphabet *)
  _ ← assert (forallb (fun pwm => bool_decide (alphabet = Matrix.alphabet pwm))
                pwms);
  (* Normalize weights *)
  weights ← mapM (fun weight => py_div weight (py_sum weights)) weights;
  (* Combine all PWMs according to given weights *)
  pwm_vals ← dict_comprehension (letters alphabet)
               (fun letter => mapM (weighted_entry pwms weights letter)
                                (seq 0 len)) ∅;
  PositionWeightMatrix alphabet pwm_vals.

(** *** Instances and methods *)

Record t : Type := mk {
  _background : gmap ascii R;
  _pwm : Matrix.t;
  _collection_set : list Collection.t
}.

(** [__init__(self, collections, weights, background)] *)
Definition __init__ (collections : list Collection.t) (weights : list R)
    (background : gmap ascii R) : result t :=
  pwm ← _combine_pwms (map Collection.pwm collections) weights;
  Ok (mk background pwm collections).

(** The default background of [__init__]. *)
Definition default_background : gmap ascii R :=
  <["A"%char := 0.25]> (<["C"%char := 0.25]> (<["G"%char := 0.25]>
    (<["T"%char := 0.25]> ∅))).

(** A method takes the instance and gives back a result or an exception,
    together with the instance as the call leaves it. *)
Definition Method (A : Type) : Type := t -> result A * t.

#[global] Instance Method_ret : MRet Method := fun A a self => (Ok a, self).

#[global] Instance Method_bind : MBind Method := fun A B f c self =>
  match c self with
  | (Ok a, self') => f a self'
  | (Raise e, self') => (Raise e, self')
  end.

(** Reading an attribute: [self.field]. *)
Definition getattr {A : Type} (field : t -> A) : Method A :=
  fun self => (Ok (field self), self).

(** Writing an attribute: [self.field = v], for each of the three fields. *)
Definition set_background (v : gmap ascii R) : Method unit :=
  fun self => (Ok tt, mk v (_pwm self) (_collection_set self)).

Definition set_pwm (v : Matrix.t) : Method unit :=
  fun self => (Ok tt, mk (_background self) v (_collection_set self)).

Definition set_collection_set (v : list Collection.t) : Method unit :=
  fun self => (Ok tt, mk (_background self) (_pwm self) v).

(** A computation that does not involve the instance. *)
Definition pure {A : Type} (r : result A) : Method A :=
  fun self => (r, self).

Section Methods.

(** The parts of the external libraries that the methods only pass values
    through: the complement of a symbol outside {A,C,G,T}, the [mean] of a
    scoring matrix, its score [distribution] at a precision and the
    distribution's [threshold_patser]. *)
Variable complement_other : ascii -> option ascii.
Variable mean : Matrix.t -> result R.
Variable Distribution : Type.
Variable distribution : Matrix.t -> nat -> result Distribution.
Variable threshold_patser : Distribution -> result R.

Definition pwm : Method Matrix.t := getattr _pwm.

Definition length : Method nat :=
  m ← getattr _pwm; mret (Matrix.length m).

Definition background : Method (gmap ascii R) := getattr _background.

Definition pssm : Method Matrix.t :=
  m ← getattr _pwm; b ← background; pure (log_odds m b).

Definition IC : Method R :=
  s ← pssm; pure (mean s).

Definition patser_threshold : Method R :=
  s ← pssm; dist ← pure (distribution s (10 ^ 3)%nat); pure (threshold_patser dist).

Definition sites : Method (list (list ascii)) :=
  colls ← getattr _collection_set;
  mret (coll ← colls; Collection.sites coll).

(** One term of the sum in [score_seq]:
    [misc.log2(2**self.pssm[seq[i]][i] + 2**self.pssm[complement_seq[i]][i])] *)
Definition score_position (seq complement_seq : list ascii) (i : nat)
    : Method R :=
  s1 ← pssm;
  c1 ← pure (list_getitem seq i);
  a ← pure (Matrix.getitem s1 c1 i);
  s2 ← pssm;
  c2 ← pure (list_getitem complement_seq i);
  b ← pure (Matrix.getitem s2 c2 i);
  mret (misc.log2 (Rpower 2 a + Rpower 2 b)).

Definition score_seq (seq : list ascii) : Method R :=
  len ← length;
  _ ← pure (assert (bool_decide (len = List.length seq)));
  complement_seq ← pure (bio_utils.complement complement_other seq);
  terms ← mapM (score_position seq complement_seq)
            (List.seq 0 (List.length seq));
  mret (py_sum terms).

Definition self_score : Method (list R) :=
  ss ← sites; mapM score_seq ss.

(** The estimator that lines 89 to 105 of [bayesian_estimator] build from
    the site scores, the background scores, the prior and the mixing ratio. *)
Definition fitted_estimator (pssm_scores bg_scores : list R)
    (prior_m alpha : R) : list R -> R :=
  let prior_g := 1 - prior_m in
  let mu_m := np_mean pssm_scores in
  let std_m := np_std pssm_scores in
  let mu_g := np_mean bg_scores in
  let std_g := np_std bg_scores in
  let pdf_m := norm_pdf mu_m std_m in
  let pdf_g := norm_pdf mu_g std_g in
  let lh_g := fun scores => map pdf_g scores in
  let lh_m := fun scores =>
    map (fun s => alpha * pdf_m s + (1 - alpha) * pdf_g s) scores in
  let lh_ratio := fun scores =>
    exp (py_sum (zip_with Rminus (map ln (lh_g scores))
                                 (map ln (lh_m scores)))) in
  fun scores => 1 / (1 + lh_ratio scores * prior_m / prior_g).

(** The names that the class body and [__init__] define on an instance. *)
Definition class_attributes : list string :=
  ["__init__"; "pwm"; "length"; "pssm"; "background"; "IC";
   "patser_threshold"; "sites"; "score_seq"; "self_score";
   "bayesian_estimator"; "_combine_pwms";
   "_background"; "_pwm"; "_collection_set"]%string.

(** [self.name()], a call with no argument whose value is used as a list of
    scores.  Of the names defined, [self_score] is the method that can be
    called this way; the others are properties (whose value is not callable)
    or take arguments: TypeError.  A name that is not defined raises
    AttributeError. *)
Definition call_method (name : string) : Method (list R) :=
  if decide (name = "self_score"%string) then self_score
  else if decide (name ∈ class_attributes) then pure (Raise TypeError)
  else pure (Raise (AttributeError name)).

Definition bayesian_estimator (bg_scores : list R) (prior_m alpha : R)
    : Method (list R -> R) :=
  pssm_scores ← call_method "score_self";
  mret (fitted_estimator pssm_scores bg_scores prior_m alpha).

End Methods.

End BindingModel.

(** * The words of the specification *)

(** The mathematical sum of a list of numbers, the spec's [Σ]. *)
Definition Rsum (xs : list R) : R := foldr Rplus 0 xs.

(** The value of a matrix at (symbol, position), 0 outside the matrix. *)
Definition entry (m : Matrix.t) (letter : ascii) (i : nat) : R :=
  default 0 (row ← Matrix.rows m !! letter; row !! i).

(** A valid matrix object: one row per letter of its alphabet and no other,
    every row of the matrix's length. *)
Record well_shaped (m : Matrix.t) : Prop := {
  shape_keys : forall letter,
    is_Some (Matrix.rows m !! letter) <-> letter ∈ letters (Matrix.alphabet m);
  shape_rows : forall letter row,
    Matrix.rows m !! letter = Some row -> List.length row = Matrix.length m
}.

(** A valid PWM (spec, data model): a well-shaped matrix whose weights sum
    to 1 across the alphabet at every position. *)
Record valid_pwm (m : Matrix.t) : Prop := {
  valid_shape : well_shaped m;
  valid_columns : forall i, (i < Matrix.length m)%nat ->
    Rsum (map (fun letter => entry m letter i)
              (letters (Matrix.alphabet m))) = 1
}.

(** The PWMs of a list share length [L] and alphabet [A]. *)
Definition share (L : nat) (A : Alphabet) (pwms : list Matrix.t) : Prop :=
  Forall (fun pwm => Matrix.length pwm = L /\ Matrix.alphabet pwm = A) pwms.

(** [Σ_i pwm_i[symbol][position] * (weight_i / Σ weights)] *)
Definition weighted_average (pwms : list Matrix.t) (weights : list R)
    (letter : ascii) (i : nat) : R :=
  Rsum (zip_with (fun pwm w => entry pwm letter i * (w / Rsum weights))
                 pwms weights).

(** The complement of a symbol: A<->T and C<->G. *)
Definition complement_base (c : ascii) : ascii :=
  if decide (c = "A"%char) then "T"%char
  else if decide (c = "T"%char) then "A"%char
  else if decide (c = "C"%char) then "G"%char
  else if decide (c = "G"%char) then "C"%char
  else c.

(** The alphabet {A,C,G,T}. *)
Definition ACGT : list ascii := ["A"; "C"; "G"; "T"]%char.

(** [seq[i]] of the spec's formulas, for a position of the sequence. *)
Definition symbol_at (seq : list ascii) (i : nat) : ascii :=
  nth i seq "N"%char.

(** [Σ_i log2(2^pssm[seq[i]][i] + 2^pssm[complement_seq[i]][i])] over the
    positions [i] in [0, length), where [complement_seq] is the symbol-wise
    complement of [seq], in the order of [seq]. *)
Definition two_strand_sum (pssm : Matrix.t) (seq : list ascii) : R :=
  let complement_seq := map complement_base seq in
  Rsum (map (fun i => misc.log2
                        (Rpower 2 (entry pssm (symbol_at seq i) i) +
                         Rpower 2 (entry pssm (symbol_at complement_seq i) i)))
            (List.seq 0 (Matrix.length pssm))).

(** A model as [__init__] builds it from valid collections: its PWM is a
    well-shaped matrix and its background gives every letter of the
    alphabet a probability. *)
Record valid_model (self : BindingModel.t) : Prop := {
  model_pwm : well_shaped (BindingModel._pwm self);
  model_background : forall k,
    k ∈ letters (Matrix.alphabet (BindingModel._pwm self)) ->
    is_Some (BindingModel._background self !! k)
}.

(** The model's alphabet is {A,C,G,T}. *)
Definition over_ACGT (self : BindingModel.t) : Prop :=
  forall c, c ∈ letters (Matrix.alphabet (BindingModel._pwm self)) <-> c ∈ ACGT.

(** The three fields hold after the call what they held before it. *)
Definition preserves_fields {A : Type} (c : BindingModel.Method A) : Prop :=
  forall self, (c self).2 = self.

(** *** The scoring methods as functions of the scoring matrix *)

(** [BindingModel.score_position], given what [self.pssm] evaluates to. *)
Definition position_score (pssm : result Matrix.t)
    (seq complement_seq : list ascii) (i : nat) : result R :=
  s1 ← pssm;
  c1 ← list_getitem seq i;
  a ← Matrix.getitem s1 c1 i;
  s2 ← pssm;
  c2 ← list_getitem complement_seq i;
  b ← Matrix.getitem s2 c2 i;
  Ok (misc.log2 (Rpower 2 a + Rpower 2 b)).

(** [BindingModel.score_seq], given the fields of the instance. *)
Definition sequence_score (complement_other : ascii -> option ascii)
    (self : BindingModel.t) (seq : list ascii) : result R :=
  _ ← assert (bool_decide (Matrix.length (BindingModel._pwm self)
                           = List.length seq));
  complement_seq ← bio_utils.complement complement_other seq;
  terms ← mapM (position_score
                  (log_odds (BindingModel._pwm self)
                            (BindingModel._background self))
                  seq complement_seq)
               (List.seq 0 (List.length seq));
  Ok (py_sum terms).

(** The score of one strand alone: [Σ_i pssm[seq[i]][i]]. *)
Definition strand_sum (pssm : Matrix.t) (seq : list ascii) : R :=
  Rsum (map (fun i => entry pssm (symbol_at seq i) i)
            (List.seq 0 (Matrix.length pssm))).

(** The score of the better strand at every position:
    [Σ_i max(pssm[seq[i]][i], pssm[complement_seq[i]][i])]. *)
Definition best_strand_sum (pssm : Matrix.t) (seq : list ascii) : R :=
  Rsum (map (fun i => Rmax (entry pssm (symbol_at seq i) i)
                           (entry pssm (symbol_at (map complement_base seq) i)
                                  i))
            (List.seq 0 (Matrix.length pssm))).

(** The unweighted mean of the inputs at (symbol, position). *)
Definition column_mean (pwms : list Matrix.t) (letter : ascii) (i : nat) : R :=
  Rsum (map (fun pwm => entry pwm letter i) pwms) / INR (List.length pwms).

(** The term of one score in the sum of [lh_ratio]:
    [log(lh_g(s)) - log(lh_m(s))] for the fitted likelihoods. *)
Definition log_likelihood_ratio (pssm_scores bg_scores : list R) (alpha : R)
    (s : R) : R :=
  ln (norm_pdf (np_mean bg_scores) (np_std bg_scores) s) -
  ln (alpha * norm_pdf (np_mean pssm_scores) (np_std pssm_scores) s +
      (1 - alpha) * norm_pdf (np_mean bg_scores) (np_std bg_scores) s).

(** The odds against an outcome of probability [x]: [(1 - x) / x]. *)
Definition odds_against (x : R) : R := 1 / x - 1.

(** A sample that a Gaussian can be fitted to: it is not empty and its
    standard deviation is not zero. *)
Definition regular_sample (xs : list R) : Prop :=
  xs <> [] /\ np_std xs <> 0.

(** The errors of a failed lookup. *)
Definition lookup_error (e : exn) : Prop :=
  e = IndexError \/ exists k, e = KeyError k.

(** ** Sample data *)

(** The DNA alphabet. *)
Definition dna : Alphabet := {| letters := ["A"; "C"; "G"; "T"]%char |}.

(** The matrix of length [L] over [A] that holds [x] everywhere. *)
Definition constant_matrix (A : Alphabet) (L : nat) (x : R) : Matrix.t :=
  Matrix.mk A L (list_to_map (map (fun k => (k, replicate L x)) (letters A))).

(** The uniform PWM of the spec's scenario: 0.25 per symbol per position. *)
Definition uniform_pwm (L : nat) : Matrix.t := constant_matrix dna L (1 / 4).

(** A model over the uniform PWM of length [L], with the default
    background and one collection of two sites. *)
Definition uniform_model (L : nat) : BindingModel.t :=
  BindingModel.mk BindingModel.default_background (uniform_pwm L)
    [Collection.mk (uniform_pwm L)
       [replicate L "A"%char; replicate L "C"%char]].

(** Two collections over the uniform PWM of length 2, the second of which
    repeats a site of the first. *)
Definition sample_collections : list Collection.t :=
  [Collection.mk (uniform_pwm 2) [["A"; "C"]; ["G"; "T"]]%char;
   Collection.mk (uniform_pwm 2) [["A"; "C"]]%char].

(** * Properties *)

(** ** Sums *)

Lemma fold_left_Rplus xs a : fold_left Rplus xs a = a + Rsum xs.
Proof.
  revert a. induction xs as [|x xs IH]; intros a; simpl.
  - lra.
  - rewrite IH. lra.
Qed.

Lemma py_sum_Rsum xs : py_sum xs = Rsum xs.
Proof. unfold py_sum. rewrite fold_left_Rplus. lra. Qed.

Lemma Rsum_app xs ys : Rsum (xs ++ ys) = Rsum xs + Rsum ys.
Proof. induction xs as [|x xs IH]; simpl; [lra | rewrite IH; lra]. Qed.

Lemma Rsum_map_scale {A : Type} (f : A -> R) (c : R) (l : list A) :
  Rsum (map (fun x => f x * c) l) = Rsum (map f l) * c.
Proof. induction l as [|x l IH]; simpl; [lra | rewrite IH; lra]. Qed.

Lemma Rsum_map_ext {A : Type} (f g : A -> R) (l : list A) :
  (forall x, x ∈ l -> f x = g x) -> Rsum (map f l) = Rsum (map g l).
Proof.
  induction l as [|x l IH]; intros Hfg; simpl; [done|].
  rewrite Hfg by left. rewrite IH; [done|].
  intros y Hy. apply Hfg. by right.
Qed.

(** ** The result monad over lists and dicts *)

Lemma mapM_nil {A B : Type} (f : A -> result B) : mapM f [] = Ok [].
Proof. reflexivity. Qed.

Lemma mapM_cons {A B : Type} (f : A -> result B) x l :
  mapM f (x :: l) = y ← f x; k ← mapM f l; Ok (y :: k).
Proof. reflexivity. Qed.

Lemma mapM_ok {A B : Type} (f : A -> result B) (g : A -> B) l :
  (forall x, x ∈ l -> f x = Ok (g x)) -> mapM f l = Ok (map g l).
Proof.
  induction l as [|x l IH]; intros Hf; [done|].
  rewrite mapM_cons, Hf by left. simpl.
  rewrite IH; [done|]. intros y Hy. apply Hf. by right.
Qed.

Lemma mapM_raise {A B : Type} (f : A -> result B) l e :
  mapM f l = Raise e -> exists x, x ∈ l /\ f x = Raise e.
Proof.
  induction l as [|x l IH]; [done|].
  rewrite mapM_cons. destruct (f x) as [y|e'] eqn:Hx; simpl.
  - destruct (mapM f l) as [k|e'']; simpl; [done|].
    intros [= ->]. destruct IH as (z & Hz & Hfz); [done|].
    exists z. split; [by right | done].
  - intros [= ->]. exists x. split; [by left | done].
Qed.

Lemma mapM_ext {A B : Type} (f g : A -> result B) l :
  (forall x, x ∈ l -> f x = g x) -> mapM f l = mapM g l.
Proof.
  induction l as [|x l IH]; intros Hfg; [done|].
  rewrite !mapM_cons, Hfg by left.
  rewrite IH; [done|]. intros y Hy. apply Hfg. by right.
Qed.

Lemma dict_comprehension_ok {A : Type} keys (f : ascii -> result A) g acc :
  (forall k, k ∈ keys -> f k = Ok (g k)) ->
  exists d, dict_comprehension keys f acc = Ok d /\
    forall k, d !! k = if decide (k ∈ keys) then Some (g k) else acc !! k.
Proof.
  revert acc. induction keys as [|k0 keys IH]; intros acc Hf; simpl.
  - exists acc. split; [done|]. intros k.
    destruct (decide (k ∈ [])) as [H|_]; [by apply elem_of_nil in H | done].
  - rewrite Hf by left. simpl.
    destruct (IH (<[k0 := g k0]> acc)) as (d & -> & Hd).
    { intros k Hk. apply Hf. by right. }
    exists d. split; [done|]. intros k. rewrite Hd.
    destruct (decide (k ∈ keys)) as [Hin|Hnin].
    + rewrite decide_True; [done | by right].
    + destruct (decide (k = k0)) as [->|Hne].
      * rewrite lookup_insert_eq, decide_True; [done | by left].
      * rewrite lookup_insert_ne by done.
        rewrite decide_False; [done|].
        intros Hin. apply elem_of_cons in Hin as [?|?]; done.
Qed.

Lemma dict_comprehension_raise {A : Type} keys (f : ascii -> result A) acc e :
  dict_comprehension keys f acc = Raise e ->
  exists k, k ∈ keys /\ f k = Raise e.
Proof.
  revert acc. induction keys as [|k0 keys IH]; intros acc; simpl; [done|].
  destruct (f k0) as [v|e'] eqn:Hk; simpl.
  - intros H. apply IH in H as (k & Hk' & Hfk).
    exists k. split; [by right | done].
  - intros [= ->]. exists k0. split; [by left | done].
Qed.

Lemma dict_comprehension_ext {A : Type} keys (f g : ascii -> result A) acc :
  (forall k, k ∈ keys -> f k = g k) ->
  dict_comprehension keys f acc = dict_comprehension keys g acc.
Proof.
  revert acc. induction keys as [|k0 keys IH]; intros acc Hfg; simpl; [done|].
  rewrite Hfg by left. destruct (g k0) as [v|e]; simpl; [|done].
  apply IH. intros k Hk. apply Hfg. by right.
Qed.

(** ** Matrices *)

Lemma getitem_entry m letter i :
  well_shaped m -> letter ∈ letters (Matrix.alphabet m) ->
  (i < Matrix.length m)%nat ->
  Matrix.getitem m letter i = Ok (entry m letter i).
Proof.
  intros [Hkeys Hrows] Hin Hi. unfold Matrix.getitem, entry, dict_getitem.
  apply Hkeys in Hin as [row Hrow]. rewrite Hrow. simpl.
  unfold list_getitem.
  destruct (lookup_lt_is_Some_2 row i) as [x Hx].
  { rewrite (Hrows _ _ Hrow). done. }
  by rewrite Hx.
Qed.

Lemma forallb_bool_decide {A : Type} (P : A -> Prop)
    `{forall x, Decision (P x)} (l : list A) :
  forallb (fun x => bool_decide (P x)) l = true <-> Forall P l.
Proof.
  induction l as [|x l IH]; simpl.
  - split; [constructor | done].
  - rewrite andb_true_iff, IH, bool_decide_eq_true, Forall_cons. done.
Qed.

Lemma PositionWeightMatrix_ok A vals L (row_of : ascii -> list R) :
  (forall k, vals !! k = if decide (k ∈ letters A) then Some (row_of k)
                         else None) ->
  (forall k, k ∈ letters A -> List.length (row_of k) = L) ->
  (letters A = [] -> L = 0%nat) ->
  PositionWeightMatrix A vals = Ok (Matrix.mk A L vals).
Proof.
  intros Hvals Hlen Hnil. unfold PositionWeightMatrix.
  destruct (dict_comprehension_ok (letters A) (dict_getitem vals) row_of ∅)
    as (d & -> & Hd).
  { intros k Hk. unfold dict_getitem. by rewrite Hvals, decide_True. }
  simpl. assert (d = vals) as ->.
  { apply map_eq. intros k. rewrite Hd, Hvals.
    destruct (decide (k ∈ letters A)); [done | apply lookup_empty]. }
  destruct (letters A) as [|l ls] eqn:Hl.
  - simpl. by rewrite Hnil.
  - unfold dict_getitem. rewrite Hvals, decide_True by left. simpl.
    rewrite Hlen; [done | by left].
Qed.

(** ** PWM combination *)

Import BindingModel.

Lemma normalize_ok (weights : list R) (s : R) :
  weights = [] \/ s <> 0 ->
  mapM (fun weight => py_div weight s) weights
  = Ok (map (fun w => w / s) weights).
Proof.
  intros [-> | Hs]; [done|].
  apply mapM_ok. intros w _. unfold py_div. by rewrite decide_False.
Qed.

Lemma normalize_raise (weights : list R) (s : R) :
  weights <> [] -> s = 0 ->
  mapM (fun weight => py_div weight s) weights = Raise ZeroDivisionError.
Proof.
  intros Hne ->. destruct weights as [|w ws]; [done|].
  rewrite mapM_cons. unfold py_div.
  destruct (decide (0 = 0)) as [_|Hne']; [done | by destruct Hne'].
Qed.

Lemma weighted_entry_ok pwms weights letter i L A :
  Forall well_shaped pwms -> share L A pwms ->
  letter ∈ letters A -> (i < L)%nat ->
  weighted_entry pwms weights letter i
  = Ok (Rsum (zip_with (fun pwm w => entry pwm letter i * w) pwms weights)).
Proof.
  intros Hshape Hshare Hin Hi. unfold weighted_entry.
  rewrite (mapM_ok _ (fun '(pwm, w) => entry pwm letter i * w)).
  - simpl. rewrite py_sum_Rsum. do 2 f_equal.
    clear. revert weights.
    induction pwms as [|p ps IH]; intros [|w ws]; simpl; [done..|].
    by rewrite IH.
  - intros [pwm w] Hpw. apply elem_of_zip_l in Hpw.
    rewrite Forall_forall in Hshape. unfold share in Hshare.
    rewrite Forall_forall in Hshare.
    destruct (Hshare _ Hpw) as [HL HA].
    rewrite getitem_entry; [done | by apply Hshape | by rewrite HA | lia].
Qed.

Lemma combine_pwms_cons p0 pwms weights :
  _combine_pwms (p0 :: pwms) weights =
  (_ ← assert (forallb (fun pwm => bool_decide
                          (Matrix.length p0 = Matrix.length pwm))
                 (p0 :: pwms));
   _ ← assert (forallb (fun pwm => bool_decide
                          (Matrix.alphabet p0 = Matrix.alphabet pwm))
                 (p0 :: pwms));
   weights' ← mapM (fun weight => py_div weight (py_sum weights)) weights;
   pwm_vals ← dict_comprehension (letters (Matrix.alphabet p0))
                (fun letter => mapM (weighted_entry (p0 :: pwms) weights' letter)
                                 (seq 0 (Matrix.length p0))) ∅;
   PositionWeightMatrix (Matrix.alphabet p0) pwm_vals).
Proof. reflexivity. Qed.

Lemma zip_with_normalized (f : Matrix.t -> R) pwms weights s :
  zip_with (fun pwm w => f pwm * w) pwms (map (fun w => w / s) weights)
  = zip_with (fun pwm w => f pwm * (w / s)) pwms weights.
Proof.
  revert weights. induction pwms as [|p ps IH]; intros [|w ws]; simpl; [done..|].
  by rewrite IH.
Qed.

Lemma valid_alphabet_nonempty m :
  valid_pwm m -> letters (Matrix.alphabet m) = [] -> Matrix.length m = 0%nat.
Proof.
  intros [_ Hcols] Hnil.
  destruct (Matrix.length m) as [|n] eqn:Hlen; [done|].
  specialize (Hcols 0%nat ltac:(lia)). rewrite Hnil in Hcols. simpl in Hcols. lra.
Qed.

Lemma share_asserts L A pwms :
  share L A pwms ->
  forallb (fun pwm => bool_decide (L = Matrix.length pwm)) pwms = true /\
  forallb (fun pwm => bool_decide (A = Matrix.alphabet pwm)) pwms = true.
Proof.
  intros Hshare. rewrite !forallb_bool_decide. unfold share in Hshare.
  split; eapply Forall_impl; try exact Hshare; simpl; intros p [? ?]; done.
Qed.

(** What [_combine_pwms] returns on PWMs that pass its two checks, when the
    weights can be normalized. *)
Lemma combine_pwms_ok p0 pwms weights :
  Forall valid_pwm (p0 :: pwms) ->
  share (Matrix.length p0) (Matrix.alphabet p0) (p0 :: pwms) ->
  weights = [] \/ Rsum weights <> 0 ->
  exists table,
    _combine_pwms (p0 :: pwms) weights
    = Ok (Matrix.mk (Matrix.alphabet p0) (Matrix.length p0) table) /\
    forall k, table !! k =
      if decide (k ∈ letters (Matrix.alphabet p0))
      then Some (map (weighted_average (p0 :: pwms) weights k)
                     (seq 0 (Matrix.length p0)))
      else None.
Proof.
  intros Hvalid Hshare Hw.
  set (L := Matrix.length p0) in *. set (A := Matrix.alphabet p0) in *.
  assert (Hshape : Forall well_shaped (p0 :: pwms)).
  { eapply Forall_impl; [exact Hvalid|]. by intros p []. }
  set (row_of := fun k => map (weighted_average (p0 :: pwms) weights k) (seq 0 L)).
  destruct (dict_comprehension_ok (letters A)
    (fun letter => mapM (weighted_entry (p0 :: pwms)
       (map (fun w => w / py_sum weights) weights) letter) (seq 0 L))
    row_of ∅) as (table & Htable & Hlookup).
  { intros k Hk. apply mapM_ok. intros i Hi. apply elem_of_seq in Hi.
    rewrite (weighted_entry_ok _ _ _ _ L A); [|done|done|done|lia].
    unfold weighted_average. by rewrite zip_with_normalized, py_sum_Rsum. }
  exists table. split.
  - destruct (share_asserts _ _ _ Hshare) as [HL HA].
    rewrite combine_pwms_cons. fold L A. rewrite HL, HA. simpl.
    rewrite normalize_ok by (by rewrite py_sum_Rsum). simpl.
    rewrite Htable. simpl.
    apply (PositionWeightMatrix_ok _ _ _ row_of).
    + intros k. rewrite Hlookup. by destruct (decide (k ∈ letters A)).
    + intros k _. unfold row_of. by rewrite length_map, length_seq.
    + apply valid_alphabet_nonempty. by inversion Hvalid.
  - intros k. rewrite Hlookup. by destruct (decide (k ∈ letters A)).
Qed.

Lemma row_entries m letter row :
  Matrix.rows m !! letter = Some row ->
  map (entry m letter) (seq 0 (List.length row)) = row.
Proof.
  intros Hrow. apply list_eq. intros i.
  rewrite list_lookup_fmap.
  destruct (decide (i < List.length row)%nat) as [Hi|Hi].
  - rewrite lookup_seq_lt by done. simpl. unfold entry. rewrite Hrow. simpl.
    destruct (lookup_lt_is_Some_2 row i Hi) as [x Hx]. by rewrite Hx.
  - rewrite lookup_seq_ge by lia. simpl. symmetry.
    apply lookup_ge_None. lia.
Qed.

Lemma weighted_sum_same (p : Matrix.t) pwms weights letter i s :
  Forall (eq p) pwms -> List.length weights = List.length pwms ->
  Rsum (zip_with (fun pwm w => entry pwm letter i * (w / s)) pwms weights)
  = entry p letter i * (Rsum weights / s).
Proof.
  intros Hsame. revert weights.
  induction Hsame as [|q pwms <- _ IH]; intros [|w ws] Hlen; simpl in *;
    try lia; [lra|].
  rewrite IH by lia. lra.
Qed.

Lemma weighted_average_same (p : Matrix.t) pwms weights letter i :
  Forall (eq p) pwms -> List.length weights = List.length pwms ->
  Rsum weights <> 0 ->
  weighted_average pwms weights letter i = entry p letter i.
Proof.
  intros Hsame Hlen Hs. unfold weighted_average.
  rewrite (weighted_sum_same p) by done. by field.
Qed.

(** When the weighted average of the inputs is the first input at every
    (symbol, position), the combination returns the first input itself. *)
Lemma combine_pwms_fixed p0 pwms weights :
  Forall valid_pwm (p0 :: pwms) ->
  share (Matrix.length p0) (Matrix.alphabet p0) (p0 :: pwms) ->
  weights = [] \/ Rsum weights <> 0 ->
  (forall letter i,
     weighted_average (p0 :: pwms) weights letter i = entry p0 letter i) ->
  _combine_pwms (p0 :: pwms) weights = Ok p0.
Proof.
  intros Hvalid Hshare Hw Havg.
  destruct (combine_pwms_ok p0 pwms weights) as (table & -> & Htable);
    [done..|].
  assert (Hp0 : valid_pwm p0) by (by inversion Hvalid).
  destruct Hp0 as [[Hkeys Hrows] _].
  destruct p0 as [A0 L0 rows0]. simpl in *. do 2 f_equal.
  apply map_eq. intros k. rewrite Htable.
  destruct (decide (k ∈ letters A0)) as [Hin|Hnin].
  - apply Hkeys in Hin as [row Hrow]. rewrite Hrow. f_equal.
    pose proof (Hrows _ _ Hrow) as HL. subst L0.
    etrans;
      [|exact (row_entries (Matrix.mk A0 (List.length row) rows0) k row Hrow)].
    apply map_ext. intros i. apply Havg.
  - symmetry. apply eq_None_not_Some. by rewrite Hkeys.
Qed.

(** C3. For every non-empty list of valid PWMs that share length [L] and
    alphabet [A], and every weight list of the same number of items with a
    nonzero sum, [_combine_pwms] returns a PWM of length [L] over alphabet
    [A] whose value at every symbol of [A] and every position below [L] is
    the sum over the inputs of [pwm_i[symbol][position] * (weight_i / sum of
    the weights)]; and when every PWM of the list is one and the same PWM,
    the result is that PWM, unchanged. *)
Theorem combine_pwms_weighted_average pwms weights L A :
  pwms <> [] -> Forall valid_pwm pwms -> share L A pwms ->
  List.length weights = List.length pwms -> Rsum weights <> 0 ->
  exists combined,
    _combine_pwms pwms weights = Ok combined /\
    Matrix.length combined = L /\
    Matrix.alphabet combined = A /\
    (forall letter i, letter ∈ letters A -> (i < L)%nat ->
       Matrix.getitem combined letter i
       = Ok (weighted_average pwms weights letter i)) /\
    (forall p, Forall (eq p) pwms -> combined = p).
Proof.
  intros Hne Hvalid Hshare Hlen Hsum.
  destruct pwms as [|p0 pwms]; [done|].
  assert (Matrix.length p0 = L /\ Matrix.alphabet p0 = A) as [<- <-]
    by (by inversion Hshare).
  destruct (combine_pwms_ok p0 pwms weights) as (table & Hrun & Htable);
    [done | done | by right |].
  eexists. split; [exact Hrun|]. simpl. repeat split.
  - intros letter i Hin Hi. unfold Matrix.getitem, dict_getitem. simpl.
    rewrite Htable, decide_True by done. simpl. unfold list_getitem.
    rewrite list_lookup_fmap, lookup_seq_lt by done. done.
  - intros p Hsame. assert (p = p0) as -> by (by inversion Hsame).
    assert (Ok (Matrix.mk (Matrix.alphabet p0) (Matrix.length p0) table)
            = Ok p0) as [= ->]; [|done].
    rewrite <- Hrun. apply combine_pwms_fixed; [done | done | by right |].
    intros letter i. by apply weighted_average_same.
Qed.

(** ** The sample matrices are valid *)

Lemma list_to_map_tabulate {A : Type} (g : ascii -> A) keys k :
  (list_to_map (map (fun k => (k, g k)) keys) : gmap ascii A) !! k
  = if decide (k ∈ keys) then Some (g k) else None.
Proof.
  induction keys as [|k0 keys IH].
  - destruct (decide (k ∈ [])) as [Hin|_]; [|apply lookup_empty].
    by apply elem_of_nil in Hin.
  - change (list_to_map (map (fun k => (k, g k)) (k0 :: keys)))
      with (<[k0 := g k0]> (list_to_map (map (fun k => (k, g k)) keys)
                              : gmap ascii A)).
    destruct (decide (k = k0)) as [->|Hne].
    + rewrite lookup_insert_eq.
      destruct (decide (k0 ∈ k0 :: keys)) as [_|Hn]; [done|].
      destruct Hn. by left.
    + rewrite lookup_insert_ne, IH by done.
      destruct (decide (k ∈ keys)) as [Hin|Hnin];
        destruct (decide (k ∈ k0 :: keys)) as [Hin'|Hnin']; try done.
      * destruct Hnin'. by right.
      * apply elem_of_cons in Hin' as [?|?]; done.
Qed.

Lemma constant_matrix_well_shaped A L x : well_shaped (constant_matrix A L x).
Proof.
  split; simpl.
  - intros k. rewrite list_to_map_tabulate.
    destruct (decide (k ∈ letters A)); split; done.
  - intros k row. rewrite list_to_map_tabulate.
    destruct (decide (k ∈ letters A)); [|done].
    intros [= <-]. apply length_replicate.
Qed.

Lemma entry_constant_matrix A L x k i :
  k ∈ letters A -> (i < L)%nat -> entry (constant_matrix A L x) k i = x.
Proof.
  intros Hk Hi. unfold entry. simpl.
  rewrite list_to_map_tabulate, decide_True by done. simpl.
  by rewrite lookup_replicate_2.
Qed.

Lemma uniform_pwm_valid L : valid_pwm (uniform_pwm L).
Proof.
  split; [apply constant_matrix_well_shaped|].
  intros i Hi. unfold uniform_pwm. simpl in *.
  rewrite !entry_constant_matrix by (done || set_solver). lra.
Qed.

Lemma uniform_pwms_share L n : share L dna (replicate n (uniform_pwm L)).
Proof. apply Forall_replicate. done. Qed.

(** C3, at two copies of the uniform PWM of length 2 with weights 1 and 3. *)
Lemma combine_pwms_weighted_average_witness :
  exists combined,
    _combine_pwms [uniform_pwm 2; uniform_pwm 2] [1; 3] = Ok combined /\
    Matrix.length combined = 2%nat /\
    Matrix.alphabet combined = dna /\
    (forall letter i, letter ∈ letters dna -> (i < 2)%nat ->
       Matrix.getitem combined letter i
       = Ok (weighted_average [uniform_pwm 2; uniform_pwm 2] [1; 3] letter i)) /\
    (forall p, Forall (eq p) [uniform_pwm 2; uniform_pwm 2] -> combined = p).
Proof.
  apply (combine_pwms_weighted_average [uniform_pwm 2; uniform_pwm 2] [1; 3]).
  - discriminate.
  - apply (Forall_replicate valid_pwm 2), uniform_pwm_valid.
  - apply (uniform_pwms_share 2 2).
  - reflexivity.
  - simpl. lra.
Defined.

(** ** Scaling the weights *)

Lemma Rsum_scale k ws : Rsum (map (Rmult k) ws) = k * Rsum ws.
Proof. induction ws as [|w ws IH]; simpl; [lra | rewrite IH; lra]. Qed.

Lemma normalize_scale k ws :
  Rsum ws <> 0 -> k <> 0 ->
  mapM (fun w => py_div w (py_sum (map (Rmult k) ws))) (map (Rmult k) ws)
  = mapM (fun w => py_div w (py_sum ws)) ws.
Proof.
  intros Hs Hk. rewrite !py_sum_Rsum, Rsum_scale.
  rewrite !normalize_ok by (right; nra).
  f_equal. rewrite map_map. apply map_ext. intros w. by field.
Qed.

Lemma combine_pwms_scale pwms weights k :
  Rsum weights <> 0 -> k <> 0 ->
  _combine_pwms pwms (map (Rmult k) weights) = _combine_pwms pwms weights.
Proof.
  intros Hs Hk. destruct pwms as [|p0 pwms]; [done|].
  rewrite !combine_pwms_cons. by rewrite normalize_scale.
Qed.

(** C8. For every list of PWMs and every weight list with a nonzero sum,
    multiplying all the weights by one positive scalar leaves the result of
    [_combine_pwms] unchanged; in particular two PWMs combined with weights
    (10, 10) give what they give with weights (1, 1). *)
Theorem combine_pwms_scale_invariant pwms weights k :
  Rsum weights <> 0 -> 0 < k ->
  _combine_pwms pwms (map (Rmult k) weights) = _combine_pwms pwms weights /\
  (forall p q, _combine_pwms [p; q] [10; 10] = _combine_pwms [p; q] [1; 1]).
Proof.
  intros Hs Hk. split.
  - apply combine_pwms_scale; [done | lra].
  - intros p q. rewrite <- (combine_pwms_scale [p; q] [1; 1] 10).
    + simpl. by rewrite Rmult_1_r.
    + simpl. lra.
    + lra.
Qed.

(** C8, at two uniform PWMs with weights (1, 3) scaled by 5. *)
Lemma combine_pwms_scale_invariant_witness :
  _combine_pwms [uniform_pwm 2; uniform_pwm 2] (map (Rmult 5) [1; 3])
  = _combine_pwms [uniform_pwm 2; uniform_pwm 2] [1; 3] /\
  (forall p q, _combine_pwms [p; q] [10; 10] = _combine_pwms [p; q] [1; 1]).
Proof.
  apply (combine_pwms_scale_invariant [uniform_pwm 2; uniform_pwm 2] [1; 3] 5).
  - simpl. lra.
  - lra.
Defined.

(** ** Failures of the combination *)

Lemma share_head L A p0 pwms :
  share L A (p0 :: pwms) -> L = Matrix.length p0 /\ A = Matrix.alphabet p0.
Proof. intros H. inversion H as [|? ? [? ?] ?]. by subst. Qed.

Lemma asserts_share L A pwms :
  forallb (fun pwm => bool_decide (L = Matrix.length pwm)) pwms = true ->
  forallb (fun pwm => bool_decide (A = Matrix.alphabet pwm)) pwms = true ->
  share L A pwms.
Proof.
  rewrite !forallb_bool_decide. unfold share. rewrite !Forall_forall.
  intros HL HA p Hp. split; symmetry; auto.
Qed.

(** C4, as the code has it.  On a non-empty list of valid PWMs,
    [_combine_pwms] raises an assertion error exactly when the PWMs do not
    share one length and one alphabet; the number of weights is not
    checked.  When the PWMs agree, a non-empty weight list with a zero sum
    makes it fail by division by zero, and a weight list of the same number
    of items with a nonzero sum makes it return a matrix. *)
Theorem combine_pwms_failures pwms weights :
  pwms <> [] -> Forall valid_pwm pwms ->
  (_combine_pwms pwms weights = Raise AssertionError
   <-> ~ exists L A, share L A pwms) /\
  ((exists L A, share L A pwms) -> weights <> [] -> Rsum weights = 0 ->
   _combine_pwms pwms weights = Raise ZeroDivisionError) /\
  ((exists L A, share L A pwms) ->
   List.length weights = List.length pwms -> Rsum weights <> 0 ->
   exists combined, _combine_pwms pwms weights = Ok combined).
Proof.
  intros Hne Hvalid. destruct pwms as [|p0 pwms]; [done|].
  assert (Hzero : (exists L A, share L A (p0 :: pwms)) -> weights <> [] ->
            Rsum weights = 0 ->
            _combine_pwms (p0 :: pwms) weights = Raise ZeroDivisionError).
  { intros (L & A & Hshare) Hw Hs.
    destruct (share_head _ _ _ _ Hshare) as [-> ->].
    destruct (share_asserts _ _ _ Hshare) as [HL HA].
    rewrite combine_pwms_cons, HL, HA. simpl.
    rewrite normalize_raise; [done | done | by rewrite py_sum_Rsum]. }
  assert (Hok : (exists L A, share L A (p0 :: pwms)) ->
            weights = [] \/ Rsum weights <> 0 ->
            exists combined, _combine_pwms (p0 :: pwms) weights = Ok combined).
  { intros (L & A & Hshare) Hw.
    destruct (share_head _ _ _ _ Hshare) as [-> ->].
    destruct (combine_pwms_ok p0 pwms weights) as (table & -> & _); eauto. }
  split; [split|split].
  - intros Hraise Hagree.
    destruct (decide (Rsum weights = 0)) as [Hs|Hs].
    + destruct weights as [|w ws].
      * destruct Hok as [c Hc]; [done | by left | congruence].
      * rewrite Hzero in Hraise; done.
    + destruct Hok as [c Hc]; [done | by right | congruence].
  - intros Hdis. rewrite combine_pwms_cons.
    destruct (forallb (fun pwm => bool_decide
                (Matrix.length p0 = Matrix.length pwm)) (p0 :: pwms)) eqn:HL;
      [|done].
    destruct (forallb (fun pwm => bool_decide
                (Matrix.alphabet p0 = Matrix.alphabet pwm)) (p0 :: pwms)) eqn:HA;
      [|done].
    destruct Hdis. eauto using asserts_share.
  - exact Hzero.
  - intros Hagree _ Hs. apply Hok; [done | by right].
Qed.

(** C4, at two uniform PWMs with weights 1 and 3. *)
Lemma combine_pwms_failures_witness :
  (_combine_pwms [uniform_pwm 2; uniform_pwm 2] [1; 3] = Raise AssertionError
   <-> ~ exists L A, share L A [uniform_pwm 2; uniform_pwm 2]) /\
  ((exists L A, share L A [uniform_pwm 2; uniform_pwm 2]) ->
   [1; 3] <> [] -> Rsum [1; 3] = 0 ->
   _combine_pwms [uniform_pwm 2; uniform_pwm 2] [1; 3]
   = Raise ZeroDivisionError) /\
  ((exists L A, share L A [uniform_pwm 2; uniform_pwm 2]) ->
   List.length [1; 3] = List.length [uniform_pwm 2; uniform_pwm 2] ->
   Rsum [1; 3] <> 0 ->
   exists combined,
     _combine_pwms [uniform_pwm 2; uniform_pwm 2] [1; 3] = Ok combined).
Proof.
  apply (combine_pwms_failures [uniform_pwm 2; uniform_pwm 2] [1; 3]).
  - discriminate.
  - apply (Forall_replicate valid_pwm 2), uniform_pwm_valid.
Defined.

(** C4 as the claim states it fails: one weight for two PWMs is a mismatch
    of the two list lengths, the PWMs share length and alphabet and the
    weight sum is not zero, and yet no assertion fails: the call returns the
    combination of the first PWM alone. *)
Lemma combine_pwms_weight_count_unchecked :
  List.length [1] <> List.length [uniform_pwm 2; uniform_pwm 2] /\
  share 2 dna [uniform_pwm 2; uniform_pwm 2] /\
  Rsum [1] <> 0 /\
  _combine_pwms [uniform_pwm 2; uniform_pwm 2] [1] = Ok (uniform_pwm 2).
Proof.
  split; [simpl; lia|]. split; [apply (uniform_pwms_share 2 2)|].
  split; [simpl; lra|].
  apply combine_pwms_fixed.
  - apply (Forall_replicate valid_pwm 2), uniform_pwm_valid.
  - apply (uniform_pwms_share 2 2).
  - right. simpl. lra.
  - intros letter i. unfold weighted_average. simpl. field.
Qed.

(** ** Running the methods *)

Lemma bind_run {A B : Type} (c : Method A) (f : A -> Method B) self :
  (c ≫= f) self = match c self with
                  | (Ok a, self') => f a self'
                  | (Raise e, self') => (Raise e, self')
                  end.
Proof. reflexivity. Qed.

Lemma pssm_run self :
  pssm self = (log_odds (_pwm self) (_background self), self).
Proof. reflexivity. Qed.

Lemma length_run self : length self = (Ok (Matrix.length (_pwm self)), self).
Proof. reflexivity. Qed.

Lemma mapM_run {A B : Type} (f : A -> Method B) (g : A -> result B) l self :
  (forall x, x ∈ l -> f x self = (g x, self)) ->
  mapM f l self = (mapM g l, self).
Proof.
  induction l as [|x l IH]; intros Hf; [done|].
  change (mapM f (x :: l)) with (y ← f x; k ← mapM f l; mret (y :: k)).
  rewrite mapM_cons, bind_run, Hf by left.
  destruct (g x) as [y|e]; [|done]. simpl.
  rewrite bind_run, IH by (intros z Hz; apply Hf; by right).
  by destruct (mapM g l).
Qed.

Lemma score_position_run seq complement_seq i self :
  score_position seq complement_seq i self
  = (position_score (log_odds (_pwm self) (_background self))
       seq complement_seq i, self).
Proof.
  unfold score_position, position_score.
  rewrite bind_run, pssm_run.
  destruct (log_odds (_pwm self) (_background self)) as [s|e] eqn:Hs; [|done].
  simpl. rewrite bind_run. unfold pure at 1.
  destruct (list_getitem seq i) as [c1|e]; [|done].
  simpl. rewrite bind_run. unfold pure at 1.
  destruct (Matrix.getitem s c1 i) as [a|e]; [|done].
  simpl. rewrite bind_run, pssm_run, Hs.
  rewrite bind_run. unfold pure at 1.
  destruct (list_getitem complement_seq i) as [c2|e]; [|done].
  simpl. rewrite bind_run. unfold pure at 1.
  by destruct (Matrix.getitem s c2 i) as [b|e].
Qed.

Lemma score_seq_run complement_other seq self :
  score_seq complement_other seq self
  = (sequence_score complement_other self seq, self).
Proof.
  unfold score_seq, sequence_score.
  rewrite bind_run, length_run, bind_run. unfold pure at 1.
  destruct (assert _) as [[]|e]; [|done].
  simpl. rewrite bind_run. unfold pure at 1.
  destruct (bio_utils.complement complement_other seq) as [cs|e]; [|done].
  simpl. rewrite bind_run.
  rewrite (mapM_run _ (position_score
             (log_odds (_pwm self) (_background self)) seq cs))
    by (intros; apply score_position_run).
  by destruct (mapM _ _).
Qed.

(** ** What the lookups raise *)

Lemma dict_getitem_raise {A : Type} (d : gmap ascii A) k e :
  dict_getitem d k = Raise e -> e = KeyError k /\ d !! k = None.
Proof. unfold dict_getitem. destruct (d !! k); [done|]. by intros [= <-]. Qed.

Lemma list_getitem_raise {A : Type} (l : list A) i e :
  list_getitem l i = Raise e -> e = IndexError.
Proof. unfold list_getitem. destruct (l !! i); [done|]. by intros [= <-]. Qed.

Lemma list_getitem_lt (l : list ascii) i :
  (i < List.length l)%nat -> list_getitem l i = Ok (symbol_at l i).
Proof.
  intros Hi. unfold list_getitem, symbol_at.
  destruct (lookup_lt_is_Some_2 l i Hi) as [x Hx]. rewrite Hx.
  f_equal. symmetry. apply nth_lookup_Some with (d := "N"%char) in Hx.
  by rewrite <- Hx.
Qed.

Lemma getitem_raise m k i e :
  Matrix.getitem m k i = Raise e -> lookup_error e.
Proof.
  unfold Matrix.getitem. destruct (dict_getitem (Matrix.rows m) k) eqn:Hd; simpl.
  - intros H%list_getitem_raise. by left.
  - intros [= <-]. apply dict_getitem_raise in Hd as [-> _]. right. eauto.
Qed.

Lemma getitem_outside m k i :
  well_shaped m -> k ∉ letters (Matrix.alphabet m) ->
  Matrix.getitem m k i = Raise (KeyError k).
Proof.
  intros [Hkeys _] Hk. unfold Matrix.getitem, dict_getitem.
  destruct (Matrix.rows m !! k) as [row|] eqn:Hrow; [|done].
  destruct Hk. apply Hkeys. eauto.
Qed.

Lemma log_odds_raise pwm background e :
  log_odds pwm background = Raise e -> lookup_error e.
Proof.
  unfold log_odds.
  destruct (dict_comprehension _ _ _) as [values|e'] eqn:Hd; [done|].
  simpl. intros [= <-].
  apply dict_comprehension_raise in Hd as (k & _ & Hk).
  destruct (dict_getitem background k) eqn:Hb; simpl in Hk.
  - destruct (dict_getitem (Matrix.rows pwm) k) eqn:Hr; simpl in Hk; [done|].
    injection Hk as <-. apply dict_getitem_raise in Hr as [-> _].
    right. eauto.
  - injection Hk as <-. apply dict_getitem_raise in Hb as [-> _].
    right. eauto.
Qed.

Lemma log_odds_ok pwm background :
  well_shaped pwm ->
  (forall k, k ∈ letters (Matrix.alphabet pwm) -> is_Some (background !! k)) ->
  exists s, log_odds pwm background = Ok s /\ well_shaped s /\
    Matrix.alphabet s = Matrix.alphabet pwm /\
    Matrix.length s = Matrix.length pwm.
Proof.
  intros [Hkeys Hrows] Hbg. unfold log_odds.
  set (g := fun k => map (fun p => ln (p / default 0 (background !! k)) / ln 2)
                         (default [] (Matrix.rows pwm !! k))).
  destruct (dict_comprehension_ok (letters (Matrix.alphabet pwm))
    (fun letter => b ← dict_getitem background letter;
                   row ← dict_getitem (Matrix.rows pwm) letter;
                   Ok (map (fun p => ln (p / b) / ln 2) row)) g ∅)
    as (values & -> & Hvalues).
  { intros k Hk. unfold dict_getitem, g.
    destruct (Hbg k Hk) as [b ->]. apply Hkeys in Hk as [row ->]. done. }
  simpl. eexists. split; [done|]. split; [|done].
  split; simpl.
  - intros k. rewrite Hvalues.
    destruct (decide (k ∈ letters (Matrix.alphabet pwm))); split; try done.
    rewrite lookup_empty. by intros [? ?].
  - intros k row. rewrite Hvalues.
    destruct (decide (k ∈ letters (Matrix.alphabet pwm))) as [Hk|Hk];
      [|by rewrite lookup_empty].
    intros [= <-]. unfold g. rewrite length_map.
    apply Hkeys in Hk as [row Hrow]. rewrite Hrow. simpl. eauto.
Qed.

(** ** The complement *)

Lemma ACGT_cases c :
  c ∈ ACGT -> c = "A"%char \/ c = "C"%char \/ c = "G"%char \/ c = "T"%char.
Proof. unfold ACGT. rewrite !elem_of_cons, elem_of_nil. tauto. Qed.

Lemma complement_base_ACGT c : c ∈ ACGT -> complement_base c ∈ ACGT.
Proof.
  intros Hc. apply ACGT_cases in Hc as [-> | [-> | [-> | ->]]];
    unfold ACGT, complement_base; simpl; rewrite !elem_of_cons; tauto.
Qed.

Lemma complement_symbol_ACGT complement_other c :
  c ∈ ACGT ->
  bio_utils.complement_symbol complement_other c = Ok (complement_base c).
Proof. intros Hc. by apply ACGT_cases in Hc as [-> | [-> | [-> | ->]]]. Qed.

Lemma complement_symbol_raise complement_other c e :
  bio_utils.complement_symbol complement_other c = Raise e ->
  e = KeyError c /\ c ∉ ACGT.
Proof.
  unfold bio_utils.complement_symbol. repeat case_decide; try done.
  destruct (complement_other c); [done|]. intros [= <-]. split; [done|].
  intros Hc%ACGT_cases. destruct Hc as [? | [? | [? | ?]]]; done.
Qed.

Lemma complement_ACGT complement_other seq :
  Forall (fun c => c ∈ ACGT) seq ->
  bio_utils.complement complement_other seq = Ok (map complement_base seq).
Proof.
  intros Hseq. apply mapM_ok. intros c Hc.
  apply complement_symbol_ACGT. rewrite Forall_forall in Hseq. auto.
Qed.

(** ** Scoring a sequence *)

Lemma lookup_symbol_at (l : list ascii) i :
  (i < List.length l)%nat -> l !! i = Some (symbol_at l i).
Proof.
  intros Hi. destruct (lookup_lt_is_Some_2 l i Hi) as [x Hx].
  rewrite Hx. f_equal. symmetry. unfold symbol_at.
  by apply nth_lookup_Some.
Qed.

Lemma symbol_at_map (f : ascii -> ascii) (l : list ascii) i :
  (i < List.length l)%nat -> symbol_at (map f l) i = f (symbol_at l i).
Proof.
  intros Hi. unfold symbol_at at 1. apply nth_lookup_Some.
  rewrite list_lookup_fmap, (lookup_symbol_at l i Hi). done.
Qed.

Lemma mapM_Ok_Forall2 {A B : Type} (f : A -> result B) l ys :
  mapM f l = Ok ys -> Forall2 (fun x y => f x = Ok y) l ys.
Proof.
  revert ys. induction l as [|x l IH]; intros ys.
  - intros [= <-]. constructor.
  - rewrite mapM_cons. destruct (f x) as [y|e] eqn:Hx; [|done]. simpl.
    destruct (mapM f l) as [k|e]; [|done]. simpl.
    intros [= <-]. constructor; auto.
Qed.

(** One position of the sum, on a scoring matrix over {A,C,G,T}: the term of
    the spec when the symbol is in the alphabet, KeyError otherwise. *)
Lemma position_score_at complement_other s seq cs i c1 c2 :
  well_shaped s ->
  (forall c, c ∈ letters (Matrix.alphabet s) <-> c ∈ ACGT) ->
  (i < Matrix.length s)%nat ->
  seq !! i = Some c1 -> cs !! i = Some c2 ->
  bio_utils.complement_symbol complement_other c1 = Ok c2 ->
  position_score (Ok s) seq cs i
  = if decide (c1 ∈ ACGT)
    then Ok (misc.log2 (Rpower 2 (entry s c1 i) +
                        Rpower 2 (entry s (complement_base c1) i)))
    else Raise (KeyError c1).
Proof.
  intros Hs Hletters Hi H1 H2 Hc. unfold position_score, list_getitem.
  simpl. rewrite H1. simpl. destruct (decide (c1 ∈ ACGT)) as [Hin|Hout].
  - rewrite getitem_entry by (done || by apply Hletters). simpl.
    rewrite H2. simpl.
    rewrite complement_symbol_ACGT in Hc by done. injection Hc as <-.
    rewrite getitem_entry;
      [done | done | by apply Hletters, complement_base_ACGT | done].
  - rewrite getitem_outside; [done | done |]. by rewrite Hletters.
Qed.

(** C7. For every model and every sequence, [score_seq] raises an assertion
    error exactly when the length of the sequence differs from the length
    of the model's combined PWM (which is what the [length] property
    returns): the assertion fails whenever the lengths differ and passes
    whenever they are equal. *)
Theorem score_seq_length_assertion complement_other self seq :
  (length self).1 = Ok (Matrix.length (_pwm self)) /\
  ((score_seq complement_other seq self).1 = Raise AssertionError
   <-> List.length seq <> Matrix.length (_pwm self)).
Proof.
  split; [done|]. rewrite score_seq_run. simpl. unfold sequence_score.
  case_bool_decide as Hlen; simpl.
  - split; [|by intros []]. intros Hraise. exfalso.
    assert (Herr : lookup_error AssertionError);
      [|by destruct Herr as [?|[? ?]]].
    destruct (bio_utils.complement complement_other seq) as [cs|e] eqn:Hc.
    + simpl in Hraise.
      destruct (mapM _ _) as [terms|e] eqn:Hm; [done|].
      simpl in Hraise. injection Hraise as ->.
      apply mapM_raise in Hm as (i & _ & Hi).
      unfold position_score in Hi.
      destruct (log_odds _ _) as [s|e] eqn:Hs;
        [|injection Hi as <-; by eapply log_odds_raise].
      simpl in Hi.
      destruct (list_getitem seq i) as [c1|e] eqn:H1;
        [|injection Hi as <-; left; by eapply list_getitem_raise].
      simpl in Hi.
      destruct (Matrix.getitem s c1 i) as [a|e] eqn:Ha;
        [|injection Hi as <-; by eapply getitem_raise].
      simpl in Hi.
      destruct (list_getitem cs i) as [c2|e] eqn:H2;
        [|injection Hi as <-; left; by eapply list_getitem_raise].
      simpl in Hi.
      destruct (Matrix.getitem s c2 i) as [b|e] eqn:Hb;
        [done|injection Hi as <-; by eapply getitem_raise].
    + simpl in Hraise. injection Hraise as ->.
      apply mapM_raise in Hc as (c & _ & Hc).
      apply complement_symbol_raise in Hc as [Hc _]. right. eauto.
  - split; [intros _; congruence | done].
Qed.

Lemma mapM_Ok_all {A B : Type} (f : A -> result B) l ys x :
  mapM f l = Ok ys -> x ∈ l -> exists y, f x = Ok y.
Proof.
  intros Hm%mapM_Ok_Forall2 Hx. revert x Hx.
  induction Hm as [|x0 y0 l ys Hx0 _ IH]; intros x Hx.
  - by apply elem_of_nil in Hx.
  - apply elem_of_cons in Hx as [->|Hx]; eauto.
Qed.

(** C5. For every valid model over the alphabet {A,C,G,T} and every DNA
    sequence [seq] whose length is the model length, [complement_seq] is the
    symbol-wise complement of [seq], in the order of [seq], and
    [score_seq(seq)] is the sum over the positions [i] in [0, length) of
    [log2(2^pssm[seq[i]][i] + 2^pssm[complement_seq[i]][i])], where [pssm]
    is what the model's [pssm] property returns. *)
Theorem score_seq_two_strands complement_other self seq :
  valid_model self -> over_ACGT self ->
  Forall (fun c => c ∈ ACGT) seq ->
  List.length seq = Matrix.length (_pwm self) ->
  bio_utils.complement complement_other seq = Ok (map complement_base seq) /\
  exists s, (pssm self).1 = Ok s /\
    (score_seq complement_other seq self).1 = Ok (two_strand_sum s seq).
Proof.
  intros [Hshape Hbg] Hletters Hseq Hlen.
  pose proof (complement_ACGT complement_other seq Hseq) as Hc.
  split; [done|].
  destruct (log_odds_ok _ _ Hshape Hbg) as (s & Hs & Hs_shape & HsA & HsL).
  exists s. rewrite pssm_run, score_seq_run. simpl. split; [done|].
  unfold sequence_score. rewrite bool_decide_eq_true_2 by done. simpl.
  rewrite Hc, Hs. simpl.
  rewrite (mapM_ok _ (fun i => misc.log2
             (Rpower 2 (entry s (symbol_at seq i) i) +
              Rpower 2 (entry s (symbol_at (map complement_base seq) i) i)))).
  - simpl. rewrite py_sum_Rsum. unfold two_strand_sum.
    by rewrite HsL, <- Hlen.
  - intros i Hi%elem_of_seq. simpl in Hi.
    assert (Hin : symbol_at seq i ∈ ACGT).
    { rewrite Forall_forall in Hseq. apply Hseq.
      apply list_elem_of_lookup. exists i. apply lookup_symbol_at. lia. }
    rewrite (position_score_at complement_other s seq
               (map complement_base seq) i (symbol_at seq i)
               (complement_base (symbol_at seq i))).
    + rewrite decide_True by done. by rewrite symbol_at_map by lia.
    + done.
    + intros c. rewrite HsA. apply Hletters.
    + lia.
    + apply lookup_symbol_at. lia.
    + rewrite list_lookup_fmap, lookup_symbol_at by lia. done.
    + by apply complement_symbol_ACGT.
Qed.

(** C10. For every valid model over the alphabet {A,C,G,T} and every string
    [seq] whose length is the model length but which holds a character
    outside {A,C,G,T}, [score_seq] passes its length assertion and then
    fails with a key error on a character of [seq] outside the alphabet
    (while complementing it or while indexing the PSSM with it); it returns
    no score. *)
Theorem score_seq_outside_alphabet complement_other self seq :
  valid_model self -> over_ACGT self ->
  List.length seq = Matrix.length (_pwm self) ->
  Exists (fun c => c ∉ ACGT) seq ->
  assert (bool_decide (Matrix.length (_pwm self) = List.length seq)) = Ok tt /\
  exists k, k ∈ seq /\ (k ∉ ACGT) /\
    (score_seq complement_other seq self).1 = Raise (KeyError k).
Proof.
  intros [Hshape Hbg] Hletters Hlen Hbad.
  rewrite bool_decide_eq_true_2 by done. split; [done|].
  destruct (log_odds_ok _ _ Hshape Hbg) as (s & Hs & Hs_shape & HsA & HsL).
  assert (HsACGT : forall c, c ∈ letters (Matrix.alphabet s) <-> c ∈ ACGT).
  { intros c. rewrite HsA. apply Hletters. }
  rewrite score_seq_run. simpl. unfold sequence_score.
  rewrite bool_decide_eq_true_2 by done. simpl.
  destruct (bio_utils.complement complement_other seq) as [cs|e] eqn:Hc; simpl.
  - apply mapM_Ok_Forall2 in Hc. rewrite Hs.
    assert (Hpos : forall i c1, seq !! i = Some c1 ->
              position_score (Ok s) seq cs i
              = if decide (c1 ∈ ACGT)
                then Ok (misc.log2 (Rpower 2 (entry s c1 i) +
                           Rpower 2 (entry s (complement_base c1) i)))
                else Raise (KeyError c1)).
    { intros i c1 H1.
      destruct (Forall2_lookup_l _ _ _ _ _ Hc H1) as (c2 & H2 & Hc12).
      apply (position_score_at complement_other _ _ _ _ _ c2); try done.
      apply lookup_lt_Some in H1. lia. }
    destruct (mapM _ _) as [terms|e] eqn:Hm; simpl.
    + exfalso. apply Exists_exists in Hbad as (c & Hc_in & Hc_bad).
      apply list_elem_of_lookup in Hc_in as [i Hi].
      destruct (mapM_Ok_all _ _ _ i Hm) as [y Hy].
      { apply elem_of_seq. apply lookup_lt_Some in Hi. lia. }
      rewrite (Hpos _ _ Hi), decide_False in Hy by done. done.
    + apply mapM_raise in Hm as (i & Hi%elem_of_seq & Hraise).
      simpl in Hi.
      assert (H1 : seq !! i = Some (symbol_at seq i))
        by (apply lookup_symbol_at; lia).
      rewrite (Hpos _ _ H1) in Hraise.
      destruct (decide (symbol_at seq i ∈ ACGT)) as [?|Hout]; [done|].
      injection Hraise as <-. exists (symbol_at seq i).
      split; [|done]. apply list_elem_of_lookup. eauto.
  - apply mapM_raise in Hc as (c & Hc_in & Hc).
    apply complement_symbol_raise in Hc as [-> Hout]. eauto.
Qed.

Lemma uniform_model_valid L : valid_model (uniform_model L).
Proof.
  split; simpl.
  - apply constant_matrix_well_shaped.
  - intros k Hk. apply ACGT_cases in Hk as [-> | [-> | [-> | ->]]];
      unfold default_background; simplify_map_eq; eauto.
Qed.

Lemma uniform_model_over_ACGT L : over_ACGT (uniform_model L).
Proof. intros c. done. Qed.

(** C5, at the uniform model of length 2 and the sequence AC. *)
Lemma score_seq_two_strands_witness :
  bio_utils.complement (fun _ => None) ["A"; "C"]%char
  = Ok (map complement_base ["A"; "C"]%char) /\
  exists s, (pssm (uniform_model 2)).1 = Ok s /\
    (score_seq (fun _ => None) ["A"; "C"]%char (uniform_model 2)).1
    = Ok (two_strand_sum s ["A"; "C"]%char).
Proof.
  apply (score_seq_two_strands (fun _ => None) (uniform_model 2)
           ["A"; "C"]%char).
  - apply uniform_model_valid.
  - apply uniform_model_over_ACGT.
  - unfold ACGT. repeat constructor; rewrite !elem_of_cons; tauto.
  - reflexivity.
Defined.

(** C10, at the uniform model of length 2 and the string AN. *)
Lemma score_seq_outside_alphabet_witness :
  assert (bool_decide (Matrix.length (_pwm (uniform_model 2))
                       = List.length ["A"; "N"]%char)) = Ok tt /\
  exists k, k ∈ ["A"; "N"]%char /\ (k ∉ ACGT) /\
    (score_seq (fun _ => None) ["A"; "N"]%char (uniform_model 2)).1
    = Raise (KeyError k).
Proof.
  apply (score_seq_outside_alphabet (fun _ => None) (uniform_model 2)
           ["A"; "N"]%char).
  - apply uniform_model_valid.
  - apply uniform_model_over_ACGT.
  - reflexivity.
  - apply Exists_cons_tl, Exists_cons_hd.
    intros H. apply ACGT_cases in H as [H | [H | [H | H]]]; discriminate H.
Defined.

(** ** The fields after a call *)

Lemma preserves_ret {A : Type} (a : A) : preserves_fields (mret a).
Proof. by intros self. Qed.

Lemma preserves_getattr {A : Type} (field : t -> A) :
  preserves_fields (getattr field).
Proof. by intros self. Qed.

Lemma preserves_pure {A : Type} (r : result A) : preserves_fields (pure r).
Proof. by intros self. Qed.

Lemma preserves_bind {A B : Type} (c : Method A) (f : A -> Method B) :
  preserves_fields c -> (forall a, preserves_fields (f a)) ->
  preserves_fields (c ≫= f).
Proof.
  intros Hc Hf self. rewrite bind_run. specialize (Hc self).
  destruct (c self) as [[a|e] self']; simpl in *; subst; [apply Hf | done].
Qed.

Lemma preserves_mapM {A B : Type} (f : A -> Method B) (l : list A) :
  (forall x, preserves_fields (f x)) -> preserves_fields (mapM f l).
Proof.
  intros Hf. induction l as [|x l IH]; [apply preserves_ret|].
  change (mapM f (x :: l)) with (y ← f x; k ← mapM f l; mret (y :: k)).
  apply preserves_bind; [done|]. intros y.
  apply preserves_bind; [done|]. intros k. apply preserves_ret.
Qed.

Ltac frame := repeat (intros; first
  [ apply preserves_ret | apply preserves_getattr | apply preserves_pure
  | apply preserves_mapM | apply preserves_bind ]).

Lemma pssm_preserves : preserves_fields pssm.
Proof. unfold pssm, background. frame. Qed.

Lemma score_seq_preserves complement_other seq :
  preserves_fields (score_seq complement_other seq).
Proof. intros self. by rewrite score_seq_run. Qed.

Lemma self_score_preserves complement_other :
  preserves_fields (self_score complement_other).
Proof.
  unfold self_score, sites. frame.
Qed.

(** A write to a field is a computation of the same kind that does not
    preserve the fields. *)
Lemma set_pwm_changes_fields :
  ~ preserves_fields (set_pwm (uniform_pwm 1)).
Proof.
  intros H. specialize (H (uniform_model 2)).
  apply (f_equal (fun m => Matrix.length (_pwm m))) in H. discriminate H.
Qed.

(** C9. After construction no operation of a model changes the fields
    [_pwm], [_background] and [_collection_set]: each of [pwm], [length],
    [pssm], [background], [IC], [patser_threshold], [sites], [score_seq],
    [self_score] and [bayesian_estimator], and the evaluation of an
    estimator built by lines 89 to 105 at a score vector, leaves the
    instance as it found it, whether it returns or raises. *)
Theorem methods_preserve_fields (complement_other : ascii -> option ascii)
    (mean : Matrix.t -> result R) (Distribution : Type)
    (distribution : Matrix.t -> nat -> result Distribution)
    (threshold_patser : Distribution -> result R) :
  preserves_fields pwm /\
  preserves_fields length /\
  preserves_fields pssm /\
  preserves_fields background /\
  preserves_fields (IC mean) /\
  preserves_fields
    (patser_threshold Distribution distribution threshold_patser) /\
  preserves_fields sites /\
  (forall seq, preserves_fields (score_seq complement_other seq)) /\
  preserves_fields (self_score complement_other) /\
  (forall bg_scores prior_m alpha,
     preserves_fields
       (bayesian_estimator complement_other bg_scores prior_m alpha)) /\
  (forall pssm_scores bg_scores prior_m alpha scores,
     preserves_fields
       (mret (fitted_estimator pssm_scores bg_scores prior_m alpha scores))).
Proof.
  repeat apply conj.
  - unfold pwm. frame.
  - unfold length. frame.
  - apply pssm_preserves.
  - unfold background. frame.
  - unfold IC. apply preserves_bind; [apply pssm_preserves | frame].
  - unfold patser_threshold.
    apply preserves_bind; [apply pssm_preserves | frame].
  - unfold sites. frame.
  - apply score_seq_preserves.
  - apply self_score_preserves.
  - intros bg_scores prior_m alpha. unfold bayesian_estimator.
    apply preserves_bind; [|frame].
    unfold call_method. repeat case_decide; try apply preserves_pure.
    apply self_score_preserves.
  - frame.
Qed.

(** ** The Bayesian estimator *)

(** C1, as the code has it.  [bayesian_estimator] calls [self.score_self()],
    a name that the class does not define (its method is [self_score]): for
    every model and all arguments the call raises AttributeError before any
    score is computed or any Gaussian fitted, and no estimator is returned. *)
Theorem bayesian_estimator_raises complement_other bg_scores prior_m alpha
    self :
  bayesian_estimator complement_other bg_scores prior_m alpha self
  = (Raise (AttributeError "score_self"), self).
Proof. reflexivity. Qed.

Lemma odds_form_decreasing r p1 p2 :
  0 < r -> 0 < p1 -> p1 < p2 -> p2 < 1 ->
  1 / (1 + r * p2 / (1 - p2)) < 1 / (1 + r * p1 / (1 - p1)).
Proof.
  intros Hr H0 H12 H1.
  assert (Ha1 : 0 < r * p1 / (1 - p1)) by (apply Rdiv_lt_0_compat; nra).
  assert (Hlt : r * p1 / (1 - p1) < r * p2 / (1 - p2)).
  { replace (r * p1 / (1 - p1))
      with (r * p1 * (1 - p2) / ((1 - p1) * (1 - p2))) by (field; lra).
    replace (r * p2 / (1 - p2))
      with (r * p2 * (1 - p1) / ((1 - p1) * (1 - p2))) by (field; lra).
    apply Rmult_lt_compat_r; [apply Rinv_0_lt_compat; nra | nra]. }
  unfold Rdiv at 1 3. rewrite !Rmult_1_l.
  apply Rinv_lt_contravar; [nra | lra].
Qed.


(** Behind line 92, and not reached as the code stands: in real arithmetic
    the function that lines 89 to 105 define multiplies the likelihood
    ratio of background over motif by [prior_m / prior_g], so that with the
    fitted parameters and the scores fixed its value falls as [prior_m]
    rises within (0, 1). *)
Lemma estimator_decreases_with_prior pssm_scores bg_scores alpha scores
    p1 p2 :
  0 < p1 -> p1 < p2 -> p2 < 1 ->
  fitted_estimator pssm_scores bg_scores p2 alpha scores
  < fitted_estimator pssm_scores bg_scores p1 alpha scores.
Proof.
  intros H0 H12 H1. unfold fitted_estimator.
  apply odds_form_decreasing; [apply exp_pos | done..].
Qed.

(** With the empty score vector the likelihood ratio is 1, and the output is
    [1 - prior_m]: 3/4 at the prior 1/4 and 1/2 at the prior 1/2. *)
Lemma estimator_no_scores pssm_scores bg_scores alpha prior_m :
  prior_m <> 1 ->
  fitted_estimator pssm_scores bg_scores prior_m alpha [] = 1 - prior_m.
Proof.
  intros Hp. unfold fitted_estimator. simpl. unfold py_sum. simpl.
  rewrite exp_0. field. lra.
Qed.

(** ** The combination of valid PWMs is a valid PWM *)

Lemma Rsum_map_plus {A : Type} (f g : A -> R) (l : list A) :
  Rsum (map (fun x => f x + g x) l) = Rsum (map f l) + Rsum (map g l).
Proof. induction l as [|x l IH]; simpl; [lra | rewrite IH; lra]. Qed.

Lemma Rsum_map_zero {A : Type} (l : list A) : Rsum (map (fun _ => 0) l) = 0.
Proof. induction l as [|x l IH]; simpl; [done | rewrite IH; lra]. Qed.

Lemma Rsum_exchange (ks : list ascii) (f : Matrix.t -> ascii -> R)
    (g : R -> R) (ps : list Matrix.t) (ws : list R) :
  Rsum (map (fun k => Rsum (zip_with (fun p w => f p k * g w) ps ws)) ks)
  = Rsum (zip_with (fun p w => Rsum (map (f p) ks) * g w) ps ws).
Proof.
  revert ws. induction ps as [|p ps IH]; intros [|w ws]; simpl;
    try apply Rsum_map_zero.
  rewrite Rsum_map_plus, Rsum_map_scale, IH. done.
Qed.

Lemma Rsum_normalized (ps : list Matrix.t) (ws : list R) (s : R) :
  List.length ws = List.length ps ->
  Rsum (zip_with (fun (p : Matrix.t) w => 1 * (w / s)) ps ws) = Rsum ws / s.
Proof.
  revert ws. induction ps as [|p ps IH]; intros [|w ws] Hlen; simpl in *;
    try lia; [lra|].
  rewrite IH by lia. lra.
Qed.

Lemma zip_with_ext_in {A B C : Type} (f g : A -> B -> C) l k :
  (forall x y, x ∈ l -> f x y = g x y) -> zip_with f l k = zip_with g l k.
Proof.
  revert k. induction l as [|x l IH]; intros [|y k] Hfg; simpl; try done.
  rewrite Hfg by left. f_equal. apply IH. intros ? ? ?. apply Hfg. by right.
Qed.

(** The columns of the combined table sum to 1: a constructor that rescales
    every column of the table by its sum would store the same matrix. *)
Lemma combine_pwms_valid pwms weights L A combined :
  pwms <> [] -> Forall valid_pwm pwms -> share L A pwms ->
  List.length weights = List.length pwms -> Rsum weights <> 0 ->
  _combine_pwms pwms weights = Ok combined -> valid_pwm combined.
Proof.
  intros Hne Hvalid Hshare Hlen Hsum Hrun.
  destruct pwms as [|p0 pwms]; [done|].
  destruct (share_head _ _ _ _ Hshare) as [-> ->].
  destruct (combine_pwms_ok p0 pwms weights) as (table & Hrun' & Htable);
    [done | done | by right |].
  rewrite Hrun' in Hrun. injection Hrun as <-.
  split; [split|]; simpl.
  - intros k. rewrite Htable.
    destruct (decide (k ∈ letters (Matrix.alphabet p0))); split; done.
  - intros k row. rewrite Htable.
    destruct (decide (k ∈ letters (Matrix.alphabet p0))); [|done].
    intros [= <-]. by rewrite length_map, length_seq.
  - intros i Hi.
    rewrite (Rsum_map_ext _
      (fun k => weighted_average (p0 :: pwms) weights k i)).
    + unfold weighted_average.
      rewrite (Rsum_exchange _ (fun p k => entry p k i)
                 (fun w => w / Rsum weights)).
      rewrite (zip_with_ext_in _ (fun _ w => 1 * (w / Rsum weights))).
      * rewrite Rsum_normalized by done. by field.
      * intros p w Hp. f_equal.
        rewrite Forall_forall in Hvalid. destruct (Hvalid p Hp) as [_ Hcols].
        unfold share in Hshare. rewrite Forall_forall in Hshare.
        destruct (Hshare p Hp) as [HL HA]. rewrite <- HA.
        apply Hcols. lia.
    + intros k Hk. unfold entry at 1. simpl.
      rewrite Htable, decide_True by done. simpl.
      rewrite list_lookup_fmap, lookup_seq_lt by done. done.
Qed.

(** ** Information content *)

(** [IC] is what the library's [mean] returns on the scoring matrix. *)
Lemma IC_run (mean : Matrix.t -> result R) self :
  IC mean self
  = (s ← log_odds (_pwm self) (_background self); mean s, self).
Proof.
  unfold IC. rewrite bind_run, pssm_run.
  by destruct (log_odds (_pwm self) (_background self)).
Qed.

(** ** Construction *)

(** [__init__] fails exactly as the combination of the collections' PWMs
    fails, and otherwise stores the combined PWM with the background and
    the collections it was given. *)
Lemma init_as_combination collections weights background :
  __init__ collections weights background
  = match _combine_pwms (map Collection.pwm collections) weights with
    | Ok combined => Ok (mk background combined collections)
    | Raise e => Raise e
    end.
Proof. reflexivity. Qed.

(** * Further properties of the combination *)

(** X18. [_combine_pwms] reads [pwms[0]] before it checks anything: on an
    empty list of PWMs it raises IndexError whatever the weights, and so
    does the construction of a model from no collection. *)
Lemma combine_pwms_empty weights background :
  _combine_pwms [] weights = Raise IndexError /\
  __init__ [] weights background = Raise IndexError.
Proof. split; reflexivity. Qed.

Lemma combine_pwms_zero_sum p0 pwms weights :
  share (Matrix.length p0) (Matrix.alphabet p0) (p0 :: pwms) ->
  weights <> [] -> Rsum weights = 0 ->
  _combine_pwms (p0 :: pwms) weights = Raise ZeroDivisionError.
Proof.
  intros Hshare Hw Hs.
  destruct (share_asserts _ _ _ Hshare) as [HL HA].
  rewrite combine_pwms_cons, HL, HA. simpl.
  rewrite normalize_raise; [done | done | by rewrite py_sum_Rsum].
Qed.

(** Two lists of valid PWMs of one shape, with weights that can be
    normalized, combine to the same matrix when their weighted averages
    agree everywhere. *)
Lemma combine_pwms_eq L A p0 pwms weights q0 qwms weights' :
  Forall valid_pwm (p0 :: pwms) -> share L A (p0 :: pwms) ->
  Forall valid_pwm (q0 :: qwms) -> share L A (q0 :: qwms) ->
  weights = [] \/ Rsum weights <> 0 ->
  weights' = [] \/ Rsum weights' <> 0 ->
  (forall letter i, weighted_average (p0 :: pwms) weights letter i
                    = weighted_average (q0 :: qwms) weights' letter i) ->
  _combine_pwms (p0 :: pwms) weights = _combine_pwms (q0 :: qwms) weights'.
Proof.
  intros Hp Hsp Hq Hsq Hw Hw' Havg.
  destruct (share_head _ _ _ _ Hsp) as [HLp HAp].
  destruct (share_head _ _ _ _ Hsq) as [HLq HAq].
  destruct (combine_pwms_ok p0 pwms weights) as (t1 & -> & Ht1);
    [done | by rewrite <- HLp, <- HAp | done |].
  destruct (combine_pwms_ok q0 qwms weights') as (t2 & -> & Ht2);
    [done | by rewrite <- HLq, <- HAq | done |].
  rewrite <- HLp, <- HAp, <- HLq, <- HAq in *. do 2 f_equal.
  apply map_eq. intros k. rewrite Ht1, Ht2.
  destruct (decide (k ∈ letters A)); [|done].
  f_equal. apply map_ext. intros i. apply Havg.
Qed.

Lemma combine_pwms_getitem p0 pwms weights combined letter i :
  Forall valid_pwm (p0 :: pwms) ->
  share (Matrix.length p0) (Matrix.alphabet p0) (p0 :: pwms) ->
  weights = [] \/ Rsum weights <> 0 ->
  _combine_pwms (p0 :: pwms) weights = Ok combined ->
  letter ∈ letters (Matrix.alphabet p0) -> (i < Matrix.length p0)%nat ->
  Matrix.getitem combined letter i
  = Ok (weighted_average (p0 :: pwms) weights letter i).
Proof.
  intros Hvalid Hshare Hw Hrun Hin Hi.
  destruct (combine_pwms_ok p0 pwms weights) as (table & Hrun' & Htable);
    [done..|].
  rewrite Hrun' in Hrun. injection Hrun as <-.
  unfold Matrix.getitem, dict_getitem. simpl.
  rewrite Htable, decide_True by done. simpl. unfold list_getitem.
  by rewrite list_lookup_fmap, lookup_seq_lt.
Qed.

(** ** The order of the PWMs *)

Lemma Rsum_Permutation (l l' : list R) : l ≡ₚ l' -> Rsum l = Rsum l'.
Proof.
  induction 1 as [|x l l' _ IH|x y l|l l' l'' _ IH1 _ IH2]; simpl;
    [done | rewrite IH; done | lra | congruence].
Qed.

Lemma zip_with_pairs {A B C : Type} (f : A -> B -> C) (pairs : list (A * B)) :
  zip_with f pairs.*1 pairs.*2 = map (fun '(x, y) => f x y) pairs.
Proof.
  induction pairs as [|[x y] l IH]; [done|].
  rewrite !fmap_cons. simpl. by f_equal.
Qed.

Lemma weighted_average_Permutation (pairs pairs' : list (Matrix.t * R))
    letter i :
  pairs ≡ₚ pairs' ->
  weighted_average pairs.*1 pairs.*2 letter i
  = weighted_average pairs'.*1 pairs'.*2 letter i.
Proof.
  intros Hperm. unfold weighted_average. rewrite !zip_with_pairs.
  assert (Hs : Rsum pairs.*2 = Rsum pairs'.*2)
    by (apply Rsum_Permutation; by rewrite Hperm).
  rewrite Hs. apply Rsum_Permutation. by rewrite Hperm.
Qed.

(** X1. The PWMs and their weights can be given in any order: for a
    non-empty list of (PWM, weight) pairs whose PWMs are valid and share
    length and alphabet, [_combine_pwms] gives the same result (the same
    matrix, or the same division by zero) on every reordering of the
    pairs. *)
Theorem combine_pwms_order (pairs pairs' : list (Matrix.t * R)) L A :
  pairs <> [] -> pairs ≡ₚ pairs' ->
  Forall valid_pwm pairs.*1 -> share L A pairs.*1 ->
  _combine_pwms pairs.*1 pairs.*2 = _combine_pwms pairs'.*1 pairs'.*2.
Proof.
  intros Hne Hperm Hvalid Hshare.
  assert (Hp1 : pairs.*1 ≡ₚ pairs'.*1) by (by rewrite Hperm).
  assert (Hp2 : pairs.*2 ≡ₚ pairs'.*2) by (by rewrite Hperm).
  assert (Hvalid' : Forall valid_pwm pairs'.*1) by (by rewrite <- Hp1).
  assert (Hshare' : share L A pairs'.*1)
    by (unfold share in *; by rewrite <- Hp1).
  assert (Havg : forall letter i,
            weighted_average pairs.*1 pairs.*2 letter i
            = weighted_average pairs'.*1 pairs'.*2 letter i)
    by (intros; by apply weighted_average_Permutation).
  pose proof (Rsum_Permutation _ _ Hp2) as Hsum.
  destruct pairs as [|[p0 w0] ps]; [done|].
  destruct pairs' as [|[q0 v0] qs];
    [by apply Permutation_nil_r in Hperm|].
  rewrite !fmap_cons in *. simpl in *.
  destruct (share_head _ _ _ _ Hshare) as [-> ->].
  destruct (decide (w0 + Rsum ps.*2 = 0)) as [Hz|Hnz].
  - rewrite combine_pwms_zero_sum by done.
    destruct (share_head _ _ _ _ Hshare') as [HL HA].
    rewrite combine_pwms_zero_sum; [done | | done |].
    + by rewrite <- HL, <- HA.
    + simpl. by rewrite <- Hsum.
  - eapply combine_pwms_eq; try done.
    + right. done.
    + right. simpl. by rewrite <- Hsum.
Qed.

(** X1, at the uniform PWMs of length 2 with weights 1 and 3, swapped. *)
Lemma combine_pwms_order_witness :
  _combine_pwms [(uniform_pwm 2, 1); (uniform_pwm 2, 3)].*1
                [(uniform_pwm 2, 1); (uniform_pwm 2, 3)].*2
  = _combine_pwms [(uniform_pwm 2, 3); (uniform_pwm 2, 1)].*1
                  [(uniform_pwm 2, 3); (uniform_pwm 2, 1)].*2.
Proof.
  apply (combine_pwms_order _ _ 2 dna).
  - discriminate.
  - apply perm_swap.
  - apply (Forall_replicate valid_pwm 2), uniform_pwm_valid.
  - apply (uniform_pwms_share 2 2).
Defined.

(** ** Equal weights *)

Lemma Rsum_replicate n (w : R) : Rsum (replicate n w) = INR n * w.
Proof.
  induction n as [|n IH]; [simpl; lra|].
  rewrite S_INR. simpl. rewrite IH. lra.
Qed.

Lemma weighted_sum_replicate (f : Matrix.t -> R) pwms (w c : R) :
  Rsum (zip_with (fun pwm x => f pwm * (x / c)) pwms
          (replicate (List.length pwms) w))
  = Rsum (map f pwms) * (w / c).
Proof. induction pwms as [|p ps IH]; simpl; [lra | rewrite IH; lra]. Qed.

(** X2. With one and the same nonzero weight for every PWM, the combination
    of a non-empty list of valid PWMs that share length and alphabet is
    their unweighted mean at every symbol of the alphabet and every
    position. *)
Theorem combine_pwms_equal_weights pwms w L A :
  pwms <> [] -> Forall valid_pwm pwms -> share L A pwms -> w <> 0 ->
  exists combined,
    _combine_pwms pwms (replicate (List.length pwms) w) = Ok combined /\
    forall letter i, letter ∈ letters A -> (i < L)%nat ->
      Matrix.getitem combined letter i = Ok (column_mean pwms letter i).
Proof.
  intros Hne Hvalid Hshare Hw.
  destruct pwms as [|p0 pwms]; [done|].
  destruct (share_head _ _ _ _ Hshare) as [-> ->].
  set (n := List.length (p0 :: pwms)).
  assert (Hn : INR n <> 0) by (apply not_0_INR; done).
  assert (Hsum : Rsum (replicate n w) <> 0).
  { rewrite Rsum_replicate. by apply Rmult_integral_contrapositive. }
  destruct (combine_pwms_ok p0 pwms (replicate n w)) as (table & Hrun & _);
    [done | done | by right |].
  eexists. split; [exact Hrun|]. intros letter i Hin Hi.
  rewrite (combine_pwms_getitem p0 pwms (replicate n w));
    [|done|done|by right|done..].
  f_equal. unfold weighted_average, column_mean. fold n.
  rewrite (weighted_sum_replicate (fun pwm => entry pwm letter i)).
  rewrite Rsum_replicate. by field.
Qed.

(** X2, at two uniform PWMs of length 2 with the weight 7 for both. *)
Lemma combine_pwms_equal_weights_witness :
  exists combined,
    _combine_pwms [uniform_pwm 2; uniform_pwm 2]
      (replicate (List.length [uniform_pwm 2; uniform_pwm 2]) 7)
    = Ok combined /\
    forall letter i, letter ∈ letters dna -> (i < 2)%nat ->
      Matrix.getitem combined letter i
      = Ok (column_mean [uniform_pwm 2; uniform_pwm 2] letter i).
Proof.
  apply (combine_pwms_equal_weights [uniform_pwm 2; uniform_pwm 2] 7 2 dna).
  - discriminate.
  - apply (Forall_replicate valid_pwm 2), uniform_pwm_valid.
  - apply (uniform_pwms_share 2 2).
  - lra.
Defined.

(** ** Convexity *)

Lemma weighted_sum_bounds (f : Matrix.t -> R) pwms weights s lo hi :
  Forall (fun pwm => lo <= f pwm <= hi) pwms ->
  Forall (fun w => 0 <= w) weights -> 0 < s ->
  List.length weights = List.length pwms ->
  lo * (Rsum weights / s)
  <= Rsum (zip_with (fun pwm w => f pwm * (w / s)) pwms weights)
  <= hi * (Rsum weights / s).
Proof.
  intros Hf Hw Hs. revert weights Hw.
  induction Hf as [|p ps [Hlo Hhi] _ IH]; intros [|w ws] Hw Hlen;
    simpl in *; try lia.
  - unfold Rdiv. rewrite Rmult_0_l, !Rmult_0_r. lra.
  - inversion Hw as [|? ? Hw0 Hws]; subst.
    assert (Hlen' : List.length ws = List.length ps) by lia.
    destruct (IH ws Hws Hlen') as [IHlo IHhi].
    assert (Hq : 0 <= w / s).
    { unfold Rdiv. apply Rmult_le_pos; [lra|].
      left. by apply Rinv_0_lt_compat. }
    replace ((w + Rsum ws) / s) with (w / s + Rsum ws / s) by (field; lra).
    split; nra.
Qed.

(** X3. The combination is a convex combination: with non-negative weights
    of positive sum, one per PWM, every value of the combined matrix lies
    between any bounds that hold for the inputs' values at that symbol and
    position (so values in [0, 1] stay in [0, 1]). *)
Theorem combine_pwms_within_bounds pwms weights L A lo hi letter i :
  pwms <> [] -> Forall valid_pwm pwms -> share L A pwms ->
  List.length weights = List.length pwms ->
  Forall (fun w => 0 <= w) weights -> 0 < Rsum weights ->
  letter ∈ letters A -> (i < L)%nat ->
  Forall (fun pwm => lo <= entry pwm letter i <= hi) pwms ->
  exists combined x,
    _combine_pwms pwms weights = Ok combined /\
    Matrix.getitem combined letter i = Ok x /\ lo <= x <= hi.
Proof.
  intros Hne Hvalid Hshare Hlen Hw Hs Hin Hi Hb.
  destruct pwms as [|p0 pwms]; [done|].
  destruct (share_head _ _ _ _ Hshare) as [-> ->].
  destruct (combine_pwms_ok p0 pwms weights) as (table & Hrun & _);
    [done | done | right; lra |].
  eexists _, _. split; [exact Hrun|]. split.
  - apply (combine_pwms_getitem p0 pwms weights); try done. right. lra.
  - unfold weighted_average.
    pose proof (weighted_sum_bounds (fun pwm => entry pwm letter i)
                  (p0 :: pwms) weights (Rsum weights) lo hi Hb Hw Hs Hlen) as H.
    replace (Rsum weights / Rsum weights) with 1 in H by (field; lra).
    lra.
Qed.

(** X3, at two uniform PWMs with weights 1 and 3 and the bounds 0 and 1. *)
Lemma combine_pwms_within_bounds_witness :
  exists combined x,
    _combine_pwms [uniform_pwm 2; uniform_pwm 2] [1; 3] = Ok combined /\
    Matrix.getitem combined "A"%char 0 = Ok x /\ 0 <= x <= 1.
Proof.
  apply (combine_pwms_within_bounds [uniform_pwm 2; uniform_pwm 2] [1; 3]
           2 dna 0 1 "A"%char 0).
  - discriminate.
  - apply (Forall_replicate valid_pwm 2), uniform_pwm_valid.
  - apply (uniform_pwms_share 2 2).
  - reflexivity.
  - repeat constructor; lra.
  - simpl. lra.
  - unfold dna. simpl. rewrite !elem_of_cons. tauto.
  - lia.
  - apply (Forall_replicate _ 2).
    unfold uniform_pwm. rewrite entry_constant_matrix; [lra | | lia].
    unfold dna. simpl. rewrite !elem_of_cons. tauto.
Defined.

(** ** A PWM of weight zero *)

Lemma weighted_average_zero_weight l1 (q : Matrix.t) l2 v1 v2 letter i :
  List.length l1 = List.length v1 ->
  weighted_average (l1 ++ q :: l2) (v1 ++ 0 :: v2) letter i
  = weighted_average (l1 ++ l2) (v1 ++ v2) letter i.
Proof.
  intros Hlen. unfold weighted_average.
  assert (Hs : Rsum (v1 ++ 0 :: v2) = Rsum (v1 ++ v2))
    by (rewrite !Rsum_app; simpl; lra).
  rewrite Hs, !zip_with_app, !Rsum_app by done. simpl.
  unfold Rdiv at 2. rewrite Rmult_0_l, Rmult_0_r. lra.
Qed.

(** X4. A PWM whose weight is zero does not contribute: for valid PWMs that
    share length and alphabet and weights of nonzero sum, combining with
    that PWM and the weight 0 at any place of the two lists gives what the
    combination gives without them. *)
Theorem combine_pwms_zero_weight l1 q l2 v1 v2 L A :
  l1 ++ l2 <> [] -> List.length l1 = List.length v1 ->
  Forall valid_pwm (l1 ++ q :: l2) -> share L A (l1 ++ q :: l2) ->
  Rsum (v1 ++ v2) <> 0 ->
  _combine_pwms (l1 ++ q :: l2) (v1 ++ 0 :: v2)
  = _combine_pwms (l1 ++ l2) (v1 ++ v2).
Proof.
  intros Hne Hlen Hvalid Hshare Hsum.
  assert (Hvalid' : Forall valid_pwm (l1 ++ l2)).
  { apply Forall_app in Hvalid as [H1 H2]. apply Forall_app.
    split; [done | by inversion H2]. }
  assert (Hshare' : share L A (l1 ++ l2)).
  { unfold share in *. apply Forall_app in Hshare as [H1 H2].
    apply Forall_app. split; [done | by inversion H2]. }
  assert (Hsum' : Rsum (v1 ++ 0 :: v2) <> 0)
    by (rewrite Rsum_app in *; simpl; lra).
  pose proof (fun letter i =>
    weighted_average_zero_weight l1 q l2 v1 v2 letter i Hlen) as Havg.
  destruct (l1 ++ q :: l2) as [|p0 ps] eqn:E1;
    [by destruct l1 | ].
  destruct (l1 ++ l2) as [|q0 qs] eqn:E2; [done|].
  apply (combine_pwms_eq L A); try done; by right.
Qed.

(** X4, at a uniform PWM of weight 2 followed by one of weight 0. *)
Lemma combine_pwms_zero_weight_witness :
  _combine_pwms ([uniform_pwm 2] ++ uniform_pwm 2 :: []) ([2] ++ 0 :: [])
  = _combine_pwms ([uniform_pwm 2] ++ []) ([2] ++ []).
Proof.
  apply (combine_pwms_zero_weight [uniform_pwm 2] (uniform_pwm 2) [] [2] []
           2 dna).
  - discriminate.
  - reflexivity.
  - apply (Forall_replicate valid_pwm 2), uniform_pwm_valid.
  - apply (uniform_pwms_share 2 2).
  - simpl. lra.
Defined.

(** ** Validity is kept *)

(** X5. The combination of valid PWMs is a valid PWM: for a non-empty list
    of valid PWMs that share length [L] and alphabet [A] and as many
    weights of nonzero sum, the matrix that [_combine_pwms] returns has one
    row of length [L] per letter of [A] and no other, and its values sum to
    1 across the alphabet at every position. *)
Theorem combine_pwms_keeps_validity pwms weights L A combined :
  pwms <> [] -> Forall valid_pwm pwms -> share L A pwms ->
  List.length weights = List.length pwms -> Rsum weights <> 0 ->
  _combine_pwms pwms weights = Ok combined ->
  valid_pwm combined /\ Matrix.length combined = L /\
  Matrix.alphabet combined = A.
Proof.
  intros Hne Hvalid Hshare Hlen Hsum Hrun.
  split; [by eapply combine_pwms_valid|].
  destruct pwms as [|p0 pwms]; [done|].
  destruct (share_head _ _ _ _ Hshare) as [-> ->].
  destruct (combine_pwms_ok p0 pwms weights) as (table & Hrun' & _);
    [done | done | by right |].
  rewrite Hrun' in Hrun. by injection Hrun as <-.
Qed.

Lemma combine_uniform_pwms :
  _combine_pwms [uniform_pwm 2; uniform_pwm 2] [1; 3] = Ok (uniform_pwm 2).
Proof.
  apply combine_pwms_fixed.
  - apply (Forall_replicate valid_pwm 2), uniform_pwm_valid.
  - apply (uniform_pwms_share 2 2).
  - right. simpl. lra.
  - intros letter i. unfold weighted_average. simpl. field.
Qed.

(** X5, at two uniform PWMs of length 2 with weights 1 and 3. *)
Lemma combine_pwms_keeps_validity_witness :
  valid_pwm (uniform_pwm 2) /\ Matrix.length (uniform_pwm 2) = 2%nat /\
  Matrix.alphabet (uniform_pwm 2) = dna.
Proof.
  apply (combine_pwms_keeps_validity [uniform_pwm 2; uniform_pwm 2] [1; 3]).
  - discriminate.
  - apply (Forall_replicate valid_pwm 2), uniform_pwm_valid.
  - apply (uniform_pwms_share 2 2).
  - reflexivity.
  - simpl. lra.
  - apply combine_uniform_pwms.
Defined.

(** * Further properties of the model *)

(** ** Construction *)

(** X6. Construction from valid collections gives a valid model: for a
    non-empty list of collections whose PWMs are valid and share length [L]
    and alphabet [A], as many weights of nonzero sum and a background that
    has every letter of [A], [__init__] returns a model that holds the
    background and the collections it was given and a valid combined PWM,
    and whose [length] is [L]. *)
Theorem init_builds_valid_model collections weights background L A :
  collections <> [] ->
  Forall valid_pwm (map Collection.pwm collections) ->
  share L A (map Collection.pwm collections) ->
  List.length weights = List.length collections -> Rsum weights <> 0 ->
  (forall k, k ∈ letters A -> is_Some (background !! k)) ->
  exists self,
    __init__ collections weights background = Ok self /\
    _background self = background /\
    _collection_set self = collections /\
    valid_pwm (_pwm self) /\ valid_model self /\
    (length self).1 = Ok L.
Proof.
  intros Hne Hvalid Hshare Hlen Hsum Hbg.
  destruct collections as [|c cs]; [done|]. simpl in Hvalid, Hshare.
  destruct (share_head _ _ _ _ Hshare) as [HL HA].
  destruct (combine_pwms_ok (Collection.pwm c) (map Collection.pwm cs) weights)
    as (table & Hrun & _); [done | by rewrite <- HL, <- HA | by right |].
  assert (Hv : valid_pwm (Matrix.mk (Matrix.alphabet (Collection.pwm c))
                            (Matrix.length (Collection.pwm c)) table)).
  { eapply (combine_pwms_valid (Collection.pwm c :: map Collection.pwm cs));
      try done. simpl. by rewrite length_map. }
  exists (mk background
            (Matrix.mk (Matrix.alphabet (Collection.pwm c))
               (Matrix.length (Collection.pwm c)) table) (c :: cs)).
  split.
  { rewrite init_as_combination.
    change (map Collection.pwm (c :: cs))
      with (Collection.pwm c :: map Collection.pwm cs).
    by rewrite Hrun. }
  do 3 (split; [done|]). split; [|by rewrite HL].
  split; simpl; [by destruct Hv|].
  intros k Hk. apply Hbg. by rewrite HA.
Qed.

Lemma default_background_dna k :
  k ∈ letters dna -> is_Some (default_background !! k).
Proof.
  intros Hk. apply ACGT_cases in Hk as [-> | [-> | [-> | ->]]];
    unfold default_background; simplify_map_eq; eauto.
Qed.

Lemma sample_collections_valid :
  Forall valid_pwm (map Collection.pwm sample_collections) /\
  share 2 dna (map Collection.pwm sample_collections).
Proof.
  split.
  - apply (Forall_replicate valid_pwm 2), uniform_pwm_valid.
  - apply (uniform_pwms_share 2 2).
Qed.

(** X6, at the two sample collections with weights 1 and 3 and the default
    background. *)
Lemma init_builds_valid_model_witness :
  exists self,
    __init__ sample_collections [1; 3] default_background = Ok self /\
    _background self = default_background /\
    _collection_set self = sample_collections /\
    valid_pwm (_pwm self) /\ valid_model self /\
    (length self).1 = Ok 2%nat.
Proof.
  apply (init_builds_valid_model sample_collections [1; 3]
           default_background 2 dna).
  - discriminate.
  - apply sample_collections_valid.
  - apply sample_collections_valid.
  - reflexivity.
  - simpl. lra.
  - apply default_background_dna.
Defined.

Lemma list_bind_concat {A B : Type} (f : A -> list B) (l : list A) :
  l ≫= f = concat (map f l).
Proof.
  induction l as [|x l IH]; [done|]. rewrite bind_cons, IH. done.
Qed.

(** X7. The sites of a constructed model are the sites of the collections it
    was constructed from, concatenated in the order of the collections and,
    within a collection, in the order of its sites; sites that occur more
    than once are kept, and the weights and the background play no part. *)
Theorem init_then_sites collections weights background self :
  __init__ collections weights background = Ok self ->
  sites self = (Ok (concat (map Collection.sites collections)), self).
Proof.
  rewrite init_as_combination.
  destruct (_combine_pwms _ _) as [combined|e]; [|done].
  intros [= <-]. unfold sites. rewrite bind_run. simpl.
  by rewrite list_bind_concat.
Qed.

Lemma init_sample_collections :
  __init__ sample_collections [1; 3] default_background
  = Ok (mk default_background (uniform_pwm 2) sample_collections).
Proof.
  rewrite init_as_combination.
  change (map Collection.pwm sample_collections)
    with [uniform_pwm 2; uniform_pwm 2].
  by rewrite combine_uniform_pwms.
Qed.

(** X7, at the two sample collections: three sites, one of them twice. *)
Lemma init_then_sites_witness :
  sites (mk default_background (uniform_pwm 2) sample_collections)
  = (Ok (concat (map Collection.sites sample_collections)),
     mk default_background (uniform_pwm 2) sample_collections).
Proof.
  apply (init_then_sites sample_collections [1; 3] default_background).
  apply init_sample_collections.
Defined.

(** ** Scores of DNA sequences *)

Lemma sequence_score_DNA complement_other self seq s :
  valid_model self -> over_ACGT self ->
  Forall (fun c => c ∈ ACGT) seq ->
  List.length seq = Matrix.length (_pwm self) ->
  log_odds (_pwm self) (_background self) = Ok s ->
  sequence_score complement_other self seq = Ok (two_strand_sum s seq).
Proof.
  intros [Hshape Hbg] Hletters Hseq Hlen Hs.
  destruct (log_odds_ok _ _ Hshape Hbg) as (s' & Hs' & Hs_shape & HsA & HsL).
  rewrite Hs in Hs'. injection Hs' as <-.
  unfold sequence_score. rewrite bool_decide_eq_true_2 by done. simpl.
  rewrite (complement_ACGT complement_other seq Hseq), Hs. simpl.
  rewrite (mapM_ok _ (fun i => misc.log2
             (Rpower 2 (entry s (symbol_at seq i) i) +
              Rpower 2 (entry s (symbol_at (map complement_base seq) i) i)))).
  - simpl. rewrite py_sum_Rsum. unfold two_strand_sum.
    by rewrite HsL, <- Hlen.
  - intros i Hi%elem_of_seq. simpl in Hi.
    assert (Hin : symbol_at seq i ∈ ACGT).
    { rewrite Forall_forall in Hseq. apply Hseq.
      apply list_elem_of_lookup. exists i. apply lookup_symbol_at. lia. }
    rewrite (position_score_at complement_other s seq
               (map complement_base seq) i (symbol_at seq i)
               (complement_base (symbol_at seq i))).
    + rewrite decide_True by done. by rewrite symbol_at_map by lia.
    + done.
    + intros c. rewrite HsA. apply Hletters.
    + lia.
    + apply lookup_symbol_at. lia.
    + rewrite list_lookup_fmap, lookup_symbol_at by lia. done.
    + by apply complement_symbol_ACGT.
Qed.

Lemma sequence_score_wrong_length complement_other self seq :
  List.length seq <> Matrix.length (_pwm self) ->
  sequence_score complement_other self seq = Raise AssertionError.
Proof.
  intros Hlen. unfold sequence_score.
  by rewrite bool_decide_eq_false_2 by congruence.
Qed.

Lemma complement_base_involutive c : complement_base (complement_base c) = c.
Proof.
  unfold complement_base at 2. repeat case_decide; subst; try done.
  unfold complement_base. by repeat case_decide.
Qed.

Lemma two_strand_sum_complement s seq :
  List.length seq = Matrix.length s ->
  two_strand_sum s (map complement_base seq) = two_strand_sum s seq.
Proof.
  intros Hlen. unfold two_strand_sum. apply Rsum_map_ext.
  intros i Hi%elem_of_seq. simpl in Hi.
  rewrite !symbol_at_map by (rewrite ?length_map; lia).
  rewrite complement_base_involutive. f_equal. apply Rplus_comm.
Qed.

(** X8. [score_seq] cannot tell a sequence from its complement: for a valid
    model over {A,C,G,T} and a DNA sequence of the model length, the
    symbol-wise complement of the sequence (what [bio_utils.complement]
    returns for it) gets the score of the sequence itself. *)
Theorem score_seq_of_complement complement_other self seq :
  valid_model self -> over_ACGT self ->
  Forall (fun c => c ∈ ACGT) seq ->
  List.length seq = Matrix.length (_pwm self) ->
  bio_utils.complement complement_other seq = Ok (map complement_base seq) /\
  score_seq complement_other (map complement_base seq) self
  = score_seq complement_other seq self.
Proof.
  intros Hvalid Hletters Hseq Hlen.
  split; [by apply complement_ACGT|].
  destruct Hvalid as [Hshape Hbg].
  destruct (log_odds_ok _ _ Hshape Hbg) as (s & Hs & Hs_shape & HsA & HsL).
  rewrite !score_seq_run. f_equal.
  rewrite (sequence_score_DNA _ _ _ s), (sequence_score_DNA _ _ _ s);
    try done.
  - by rewrite two_strand_sum_complement by congruence.
  - rewrite Forall_forall in *. intros c Hc.
    apply list_elem_of_fmap in Hc as (c' & -> & Hc').
    by apply complement_base_ACGT, Hseq.
  - by rewrite length_map.
Qed.

(** X8, at the uniform model of length 2 and the sequence AC. *)
Lemma score_seq_of_complement_witness :
  bio_utils.complement (fun _ => None) ["A"; "C"]%char
  = Ok (map complement_base ["A"; "C"]%char) /\
  score_seq (fun _ => None) (map complement_base ["A"; "C"]%char)
    (uniform_model 2)
  = score_seq (fun _ => None) ["A"; "C"]%char (uniform_model 2).
Proof.
  apply (score_seq_of_complement (fun _ => None) (uniform_model 2)
           ["A"; "C"]%char).
  - apply uniform_model_valid.
  - apply uniform_model_over_ACGT.
  - unfold ACGT. repeat constructor; rewrite !elem_of_cons; tauto.
  - reflexivity.
Defined.

(** ** The soft-max of the two strands *)

Lemma ln_2_pos : 0 < ln 2.
Proof. pose proof ln_lt_2. lra. Qed.

Lemma ln_le_compat x y : 0 < x -> x <= y -> ln x <= ln y.
Proof.
  intros Hx [Hlt | ->]; [|lra]. left. by apply ln_increasing.
Qed.

Lemma log2_Rpower a : misc.log2 (Rpower 2 a) = a.
Proof.
  unfold misc.log2, Rpower. rewrite ln_exp. field.
  pose proof ln_2_pos. lra.
Qed.

Lemma log2_le x y : 0 < x -> x <= y -> misc.log2 x <= misc.log2 y.
Proof.
  intros Hx Hxy. unfold misc.log2, Rdiv.
  apply Rmult_le_compat_r; [|by apply ln_le_compat].
  left. apply Rinv_0_lt_compat, ln_2_pos.
Qed.

Lemma Rpower_2_pos a : 0 < Rpower 2 a.
Proof. unfold Rpower. apply exp_pos. Qed.

Lemma soft_max_bounds a b :
  a <= misc.log2 (Rpower 2 a + Rpower 2 b) /\
  b <= misc.log2 (Rpower 2 a + Rpower 2 b) /\
  misc.log2 (Rpower 2 a + Rpower 2 b) <= Rmax a b + 1.
Proof.
  pose proof (Rpower_2_pos a) as Ha. pose proof (Rpower_2_pos b) as Hb.
  repeat split.
  - rewrite <- (log2_Rpower a) at 1. apply log2_le; lra.
  - rewrite <- (log2_Rpower b) at 1. apply log2_le; lra.
  - rewrite <- (log2_Rpower (Rmax a b + 1)). apply log2_le; [lra|].
    rewrite Rpower_plus, Rpower_1 by lra.
    assert (Rpower 2 a <= Rpower 2 (Rmax a b))
      by (apply Rle_Rpower; [lra | apply Rmax_l]).
    assert (Rpower 2 b <= Rpower 2 (Rmax a b))
      by (apply Rle_Rpower; [lra | apply Rmax_r]).
    lra.
Qed.

Lemma Rsum_map_le {A : Type} (f g : A -> R) (l : list A) :
  (forall x, x ∈ l -> f x <= g x) -> Rsum (map f l) <= Rsum (map g l).
Proof.
  induction l as [|x l IH]; intros Hfg; simpl; [lra|].
  assert (f x <= g x) by (apply Hfg; by left).
  assert (Rsum (map f l) <= Rsum (map g l))
    by (apply IH; intros y Hy; apply Hfg; by right).
  lra.
Qed.

Lemma Rsum_map_plus_one {A : Type} (f : A -> R) (l : list A) :
  Rsum (map (fun x => f x + 1) l) = Rsum (map f l) + INR (List.length l).
Proof.
  induction l as [|x l IH]; [simpl; lra|].
  change (List.length (x :: l)) with (S (List.length l)).
  rewrite S_INR. simpl. rewrite IH. lra.
Qed.

Lemma two_strand_sum_bounds s seq :
  strand_sum s seq <= two_strand_sum s seq /\
  strand_sum s (map complement_base seq) <= two_strand_sum s seq /\
  two_strand_sum s seq <= best_strand_sum s seq + INR (Matrix.length s).
Proof.
  unfold strand_sum, two_strand_sum, best_strand_sum. repeat split.
  - apply Rsum_map_le. intros i _. apply soft_max_bounds.
  - apply Rsum_map_le. intros i _. apply soft_max_bounds.
  - replace (INR (Matrix.length s))
      with (INR (List.length (List.seq 0 (Matrix.length s))))
      by (by rewrite length_seq).
    rewrite <- Rsum_map_plus_one.
    apply Rsum_map_le. intros i _. apply soft_max_bounds.
Qed.

(** X9. The score of both strands is a soft maximum: for a valid model over
    {A,C,G,T} and a DNA sequence of the model length, [score_seq] returns a
    score that is at least the PSSM score of the sequence alone, at least
    the PSSM score of its complement alone, and at most the sum over the
    positions of the better of the two plus one per position. *)
Theorem score_seq_soft_max complement_other self seq :
  valid_model self -> over_ACGT self ->
  Forall (fun c => c ∈ ACGT) seq ->
  List.length seq = Matrix.length (_pwm self) ->
  exists s score,
    (pssm self).1 = Ok s /\
    (score_seq complement_other seq self).1 = Ok score /\
    strand_sum s seq <= score /\
    strand_sum s (map complement_base seq) <= score /\
    score <= best_strand_sum s seq + INR (List.length seq).
Proof.
  intros Hvalid Hletters Hseq Hlen.
  pose proof Hvalid as [Hshape Hbg].
  destruct (log_odds_ok _ _ Hshape Hbg) as (s & Hs & Hs_shape & HsA & HsL).
  exists s, (two_strand_sum s seq).
  rewrite pssm_run, score_seq_run. simpl. split; [done|].
  split; [by apply sequence_score_DNA|].
  rewrite Hlen, <- HsL. apply two_strand_sum_bounds.
Qed.

(** X9, at the uniform model of length 2 and the sequence AC. *)
Lemma score_seq_soft_max_witness :
  exists s score,
    (pssm (uniform_model 2)).1 = Ok s /\
    (score_seq (fun _ => None) ["A"; "C"]%char (uniform_model 2)).1
    = Ok score /\
    strand_sum s ["A"; "C"]%char <= score /\
    strand_sum s (map complement_base ["A"; "C"]%char) <= score /\
    score <= best_strand_sum s ["A"; "C"]%char
             + INR (List.length ["A"; "C"]%char).
Proof.
  apply (score_seq_soft_max (fun _ => None) (uniform_model 2)
           ["A"; "C"]%char).
  - apply uniform_model_valid.
  - apply uniform_model_over_ACGT.
  - unfold ACGT. repeat constructor; rewrite !elem_of_cons; tauto.
  - reflexivity.
Defined.

(** ** The scores of the model's own sites *)

Lemma sites_run self :
  sites self
  = (Ok (concat (map Collection.sites (_collection_set self))), self).
Proof. unfold sites. rewrite bind_run. simpl. by rewrite list_bind_concat. Qed.

Lemma self_score_run complement_other self :
  self_score complement_other self
  = (mapM (sequence_score complement_other self)
       (concat (map Collection.sites (_collection_set self))), self).
Proof.
  unfold self_score. rewrite bind_run, sites_run.
  apply mapM_run. intros site _. apply score_seq_run.
Qed.

Lemma mapM_raise_only {A B : Type} (f : A -> result B) l e :
  (forall x, x ∈ l -> (exists y, f x = Ok y) \/ f x = Raise e) ->
  Exists (fun x => f x = Raise e) l ->
  mapM f l = Raise e.
Proof.
  intros Hf Hex. induction Hex as [x l Hx | x l _ IH].
  - by rewrite mapM_cons, Hx.
  - rewrite mapM_cons.
    destruct (Hf x ltac:(by left)) as [[y ->] | ->]; [|done]. simpl.
    rewrite IH; [done|]. intros z Hz. apply Hf. by right.
Qed.

Lemma self_score_run_DNA complement_other self s :
  valid_model self -> over_ACGT self ->
  log_odds (_pwm self) (_background self) = Ok s ->
  Forall (fun site => Forall (fun c => c ∈ ACGT) site /\
                      List.length site = Matrix.length (_pwm self))
    (concat (map Collection.sites (_collection_set self))) ->
  self_score complement_other self
  = (Ok (map (two_strand_sum s)
           (concat (map Collection.sites (_collection_set self)))), self).
Proof.
  intros Hvalid Hletters Hs Hsites. rewrite self_score_run. f_equal.
  apply mapM_ok. intros site Hsite.
  rewrite Forall_forall in Hsites. destruct (Hsites site Hsite).
  by apply sequence_score_DNA.
Qed.

(** X10. [self_score] gives one score per site, in the order of [sites]:
    whenever it returns, it returns as many scores as the model has sites,
    and the score at each place is what [score_seq] returns for the site at
    that place. *)
Theorem self_score_one_per_site complement_other self scores :
  (self_score complement_other self).1 = Ok scores ->
  exists site_list,
    (sites self).1 = Ok site_list /\
    List.length scores = List.length site_list /\
    Forall2 (fun site score =>
               (score_seq complement_other site self).1 = Ok score)
      site_list scores.
Proof.
  rewrite self_score_run, sites_run. simpl. intros Hm.
  eexists. split; [done|]. apply mapM_Ok_Forall2 in Hm.
  split; [symmetry; by eapply Forall2_length|].
  eapply Forall2_impl; [exact Hm|]. intros site score Hscore.
  by rewrite score_seq_run.
Qed.

Lemma uniform_model_sites_DNA :
  Forall (fun site => Forall (fun c => c ∈ ACGT) site /\
                      List.length site = Matrix.length (_pwm (uniform_model 2)))
    (concat (map Collection.sites (_collection_set (uniform_model 2)))).
Proof.
  unfold ACGT. simpl.
  repeat constructor; rewrite !elem_of_cons; tauto.
Qed.

Lemma uniform_model_pssm :
  exists s, log_odds (_pwm (uniform_model 2)) (_background (uniform_model 2))
            = Ok s.
Proof.
  destruct (uniform_model_valid 2) as [Hshape Hbg].
  destruct (log_odds_ok _ _ Hshape Hbg) as (s & Hs & _). eauto.
Qed.

(** X10, at the uniform model of length 2, whose two sites are AA and CC. *)
Lemma self_score_one_per_site_witness :
  exists scores site_list,
    (sites (uniform_model 2)).1 = Ok site_list /\
    List.length scores = List.length site_list /\
    Forall2 (fun site score =>
               (score_seq (fun _ => None) site (uniform_model 2)).1 = Ok score)
      site_list scores.
Proof.
  destruct uniform_model_pssm as [s Hs].
  eexists.
  apply (self_score_one_per_site (fun _ => None) (uniform_model 2)).
  rewrite (self_score_run_DNA _ _ s); [reflexivity | | | done |].
  - apply uniform_model_valid.
  - apply uniform_model_over_ACGT.
  - apply uniform_model_sites_DNA.
Defined.

(** X11. For a valid model over {A,C,G,T} whose sites are all DNA sequences
    of the model length, [self_score] returns, for every site in the order
    of [sites], the two-strand sum of the site over the model's PSSM. *)
Theorem self_score_of_DNA_sites complement_other self :
  valid_model self -> over_ACGT self ->
  Forall (fun site => Forall (fun c => c ∈ ACGT) site /\
                      List.length site = Matrix.length (_pwm self))
    (concat (map Collection.sites (_collection_set self))) ->
  exists s site_list,
    (pssm self).1 = Ok s /\ (sites self).1 = Ok site_list /\
    (self_score complement_other self).1
    = Ok (map (two_strand_sum s) site_list).
Proof.
  intros Hvalid Hletters Hsites. pose proof Hvalid as [Hshape Hbg].
  destruct (log_odds_ok _ _ Hshape Hbg) as (s & Hs & _).
  exists s. eexists. rewrite pssm_run, sites_run. simpl.
  split; [done|]. split; [done|].
  by rewrite (self_score_run_DNA _ _ s).
Qed.

(** X11, at the uniform model of length 2. *)
Lemma self_score_of_DNA_sites_witness :
  exists s site_list,
    (pssm (uniform_model 2)).1 = Ok s /\
    (sites (uniform_model 2)).1 = Ok site_list /\
    (self_score (fun _ => None) (uniform_model 2)).1
    = Ok (map (two_strand_sum s) site_list).
Proof.
  apply (self_score_of_DNA_sites (fun _ => None) (uniform_model 2)).
  - apply uniform_model_valid.
  - apply uniform_model_over_ACGT.
  - apply uniform_model_sites_DNA.
Defined.

(** X12. One site of the wrong length makes [self_score] fail: for a valid
    model over {A,C,G,T} whose sites are all DNA sequences, if some site's
    length differs from the model length then [self_score] raises an
    assertion error and returns no score at all, also not for the sites of
    the right length. *)
Theorem self_score_wrong_length_site complement_other self :
  valid_model self -> over_ACGT self ->
  Forall (Forall (fun c => c ∈ ACGT))
    (concat (map Collection.sites (_collection_set self))) ->
  Exists (fun site => List.length site <> Matrix.length (_pwm self))
    (concat (map Collection.sites (_collection_set self))) ->
  self_score complement_other self = (Raise AssertionError, self).
Proof.
  intros Hvalid Hletters Hdna Hwrong. pose proof Hvalid as [Hshape Hbg].
  destruct (log_odds_ok _ _ Hshape Hbg) as (s & Hs & _).
  rewrite self_score_run. f_equal. apply mapM_raise_only.
  - intros site Hsite. rewrite Forall_forall in Hdna.
    destruct (decide (List.length site = Matrix.length (_pwm self))) as [Hl|Hl].
    + left. eexists. apply (sequence_score_DNA _ _ _ s); auto.
    + right. by apply sequence_score_wrong_length.
  - eapply Exists_impl; [exact Hwrong|]. intros site Hl.
    by apply sequence_score_wrong_length.
Qed.

(** X12, at a model of length 3 over the sample collections, whose sites
    have length 2. *)
Lemma self_score_wrong_length_site_witness :
  self_score (fun _ => None)
    (mk default_background (uniform_pwm 3) sample_collections)
  = (Raise AssertionError,
     mk default_background (uniform_pwm 3) sample_collections).
Proof.
  apply (self_score_wrong_length_site (fun _ => None)
           (mk default_background (uniform_pwm 3) sample_collections)).
  - split; [apply constant_matrix_well_shaped | apply default_background_dna].
  - intros c. done.
  - unfold ACGT. simpl. repeat constructor; rewrite !elem_of_cons; tauto.
  - apply Exists_cons_hd. simpl. lia.
Defined.

(** * Further properties of the estimator *)

Lemma zip_with_maps {A B C D : Type} (f : B -> C -> D) (g : A -> B)
    (h : A -> C) (l : list A) :
  zip_with f (map g l) (map h l) = map (fun x => f (g x) (h x)) l.
Proof. induction l as [|x l IH]; simpl; [done | by rewrite IH]. Qed.

Lemma fitted_estimator_sum pssm_scores bg_scores prior_m alpha scores :
  fitted_estimator pssm_scores bg_scores prior_m alpha scores
  = 1 / (1 + exp (Rsum (map (log_likelihood_ratio pssm_scores bg_scores alpha)
                          scores))
             * prior_m / (1 - prior_m)).
Proof.
  unfold fitted_estimator. rewrite py_sum_Rsum, !map_map, zip_with_maps.
  reflexivity.
Qed.

Lemma norm_pdf_pos mu std x : 0 < std -> 0 < norm_pdf mu std x.
Proof.
  intros Hstd. unfold norm_pdf.
  assert (0 < sqrt (2 * PI))
    by (apply sqrt_lt_R0; pose proof PI_RGT_0; lra).
  repeat apply Rdiv_lt_0_compat; try done. apply exp_pos.
Qed.

Lemma regular_sample_std_pos xs : regular_sample xs -> 0 < np_std xs.
Proof.
  intros [_ Hstd]. unfold np_std in *.
  destruct (sqrt_pos (np_mean
              (map (fun x => Rabs (x - np_mean xs) ^ 2) xs))) as [H|H];
    [done | by destruct Hstd].
Qed.

(** On regular samples and a mixing ratio in [0, 1] both fitted
    likelihoods are positive at every score, so that their logarithms are
    taken of positive numbers. *)
Lemma fitted_likelihoods_pos pssm_scores bg_scores alpha s :
  regular_sample pssm_scores -> regular_sample bg_scores ->
  0 <= alpha <= 1 ->
  0 < norm_pdf (np_mean bg_scores) (np_std bg_scores) s /\
  0 < alpha * norm_pdf (np_mean pssm_scores) (np_std pssm_scores) s +
      (1 - alpha) * norm_pdf (np_mean bg_scores) (np_std bg_scores) s.
Proof.
  intros Hm Hg Ha.
  pose proof (norm_pdf_pos (np_mean pssm_scores) (np_std pssm_scores) s
                (regular_sample_std_pos _ Hm)).
  pose proof (norm_pdf_pos (np_mean bg_scores) (np_std bg_scores) s
                (regular_sample_std_pos _ Hg)).
  split; [done | nra].
Qed.







(** X15. On the empty score vector the likelihood ratio is 1 and the
    estimator returns [1 - prior_m], for every prior other than 1 and all
    fitted parameters. *)
Theorem estimator_of_no_scores pssm_scores bg_scores alpha prior_m :
  prior_m <> 1 ->
  fitted_estimator pssm_scores bg_scores prior_m alpha [] = 1 - prior_m.
Proof.
  intros Hp. rewrite fitted_estimator_sum. simpl. rewrite exp_0.
  field. lra.
Qed.

(** X15, at the prior 1/4. *)
Lemma estimator_of_no_scores_witness :
  fitted_estimator [9; 11] [-1; 1] (1 / 4) (1 / 350) [] = 1 - 1 / 4.
Proof.
  apply (estimator_of_no_scores [9; 11] [-1; 1] (1 / 350) (1 / 4)). lra.
Defined.

(** X16. The estimator does not depend on the order of the scores it is
    given: a reordering of the score vector gives the same output. *)
Theorem estimator_order pssm_scores bg_scores prior_m alpha scores scores' :
  scores ≡ₚ scores' ->
  fitted_estimator pssm_scores bg_scores prior_m alpha scores
  = fitted_estimator pssm_scores bg_scores prior_m alpha scores'.
Proof.
  intros Hperm. rewrite !fitted_estimator_sum.
  do 5 f_equal. apply Rsum_Permutation. by rewrite Hperm.
Qed.

(** X16, at the scores 10 and 0 in the two orders. *)
Lemma estimator_order_witness :
  fitted_estimator [9; 11] [-1; 1] (1 / 4) (1 / 350) [10; 0]
  = fitted_estimator [9; 11] [-1; 1] (1 / 4) (1 / 350) [0; 10].
Proof.
  apply (estimator_order [9; 11] [-1; 1] (1 / 4) (1 / 350) [10; 0] [0; 10]).
  apply perm_swap.
Defined.

(** X17. The scores of one call are combined jointly: for a prior strictly
    between 0 and 1, the odds against regulation that the estimator gives
    for two score vectors put together, multiplied by
    [prior_m / (1 - prior_m)], are the product of the odds it gives for
    each vector alone. *)
Theorem estimator_joint pssm_scores bg_scores alpha prior_m scores1 scores2 :
  0 < prior_m -> prior_m < 1 ->
  odds_against (fitted_estimator pssm_scores bg_scores prior_m alpha
                  (scores1 ++ scores2))
  * (prior_m / (1 - prior_m))
  = odds_against (fitted_estimator pssm_scores bg_scores prior_m alpha scores1)
    * odds_against (fitted_estimator pssm_scores bg_scores prior_m alpha
                      scores2).
Proof.
  intros H0 H1. rewrite !fitted_estimator_sum, map_app, Rsum_app, exp_plus.
  set (r1 := exp (Rsum (map _ scores1))).
  set (r2 := exp (Rsum (map _ scores2))).
  assert (Hr1 : 0 < r1) by apply exp_pos.
  assert (Hr2 : 0 < r2) by apply exp_pos.
  assert (Hp1 : 0 < r1 * prior_m) by (apply Rmult_lt_0_compat; lra).
  assert (Hp2 : 0 < r2 * prior_m) by (apply Rmult_lt_0_compat; lra).
  assert (Hp12 : 0 < r1 * r2 * prior_m)
    by (repeat apply Rmult_lt_0_compat; lra).
  unfold odds_against. field. repeat split; lra.
Qed.

(** X17, at the prior 1/4 and the score vectors [10] and [0]. *)
Lemma estimator_joint_witness :
  odds_against (fitted_estimator [9; 11] [-1; 1] (1 / 4) (1 / 350)
                  ([10] ++ [0]))
  * ((1 / 4) / (1 - 1 / 4))
  = odds_against (fitted_estimator [9; 11] [-1; 1] (1 / 4) (1 / 350) [10])
    * odds_against (fitted_estimator [9; 11] [-1; 1] (1 / 4) (1 / 350) [0]).
Proof.
  apply (estimator_joint [9; 11] [-1; 1] (1 / 350) (1 / 4) [10] [0]); lra.
Defined.
